(** * RAG engine: tokenizer, chunker, relevance scorer and retrieval index

    A shallow embedding of the [RAGEngine] class (rag-engine.js) and of the
    places of the application that call it, followed by the properties of
    the retrieval subsystem.

    Modelling conventions.
    - A JavaScript string is the list of its code units. The development
      covers the code units U+0000..U+00FF, one [ascii] each; on that range
      [toLowerCase], the regular-expression classes [\w] and [\s] and
      [trim] are written out below exactly as ECMAScript defines them.
    - A JavaScript number that holds a count or a configuration value is an
      integer ([nat] for lengths, [Z] where the code can receive a negative
      value).
    - The scorer is given in two arithmetics. In exact arithmetic a score
      is a real number ([R]) and [Math.log], [Math.sqrt] are [ln] and
      [sqrt]: the properties that rest on the sign of a score, or on the
      tokens that a chunk and a query share, are stated there. In double
      precision (module [Float64]) a score is a binary64 number and
      [Math.log] is a parameter: the properties that depend on the rounded
      values, the order of the ranked chunks and the additions of the
      scoring loop, are stated there.
    - [Date], [Math.random] and the IndexedDB store are the environment:
      what they return is an argument of the operation that reads them. *)

From Stdlib Require Import Reals Lra Ascii String DecimalString DecimalNat.
From Stdlib Require Floats.
From stdpp Require Import gmap strings list sorting.

(** ** Strings *)

Abbreviation jsstring := (list ascii).

Definition js (s : string) : jsstring := list_ascii_of_string s.

Definition code (c : ascii) : N := N_of_ascii c.

Definition LF : ascii := ascii_of_N 10.
Definition SP : ascii := ascii_of_N 32.

(** [\s] of a regular expression and the white space of [trim]: TAB, LF, VT,
    FF, CR, SP and NBSP are the members below U+0100. *)
Definition isSpace (c : ascii) : bool :=
  let n := code c in
  ((9 <=? n) && (n <=? 13) || (n =? 32) || (n =? 160))%N.

(** [\w] is [[A-Za-z0-9_]]. *)
Definition isWordChar (c : ascii) : bool :=
  let n := code c in
  ((48 <=? n) && (n <=? 57) || (65 <=? n) && (n <=? 90)
   || (n =? 95) || (97 <=? n) && (n <=? 122))%N.

(** [String.prototype.toLowerCase] on one code unit: A-Z and the Latin-1
    capitals U+00C0..U+00DE (U+00D7, the multiplication sign, is no letter)
    move up by 32. *)
Definition lowerChar (c : ascii) : ascii :=
  let n := code c in
  if ((65 <=? n) && (n <=? 90)
      || (192 <=? n) && (n <=? 222) && negb (n =? 215))%N
  then ascii_of_N (n + 32) else c.

Definition toLowerCase (s : jsstring) : jsstring := lowerChar <$> s.

(** [s.replace(/[^\w\s]/g, ' ')] *)
Definition replacePunct (s : jsstring) : jsstring :=
  (λ c, if isWordChar c || isSpace c then c else SP) <$> s.

(** [s.split(sep)] for a one-character separator: [cur] is the piece being
    read. The result is never empty; [split] of the empty string is [[""]]. *)
Fixpoint splitOn (sep : ascii) (cur s : jsstring) : list jsstring :=
  match s with
  | [] => [cur]
  | c :: s' =>
      if Ascii.eqb c sep then cur :: splitOn sep [] s'
      else splitOn sep (cur ++ [c]) s'
  end.

Definition split (sep : ascii) (s : jsstring) : list jsstring := splitOn sep [] s.

(** [s.split(/\s+/)]: a maximal run of white space is one separator. A run
    at the start or at the end of [s] leaves an empty piece there.
    [inrun] says that the previous code unit was white space. *)
Fixpoint splitSpaces (inrun : bool) (cur s : jsstring) : list jsstring :=
  match s with
  | [] => [cur]
  | c :: s' =>
      if isSpace c then
        if inrun then splitSpaces true cur s' else cur :: splitSpaces true [] s'
      else splitSpaces false (cur ++ [c]) s'
  end.

Definition splitWhitespace (s : jsstring) : list jsstring := splitSpaces false [] s.

(** [pieces.join(sep)] *)
Fixpoint join (sep : jsstring) (pieces : list jsstring) : jsstring :=
  match pieces with
  | [] => []
  | [p] => p
  | p :: rest => p ++ sep ++ join sep rest
  end.

Fixpoint dropSpaces (s : jsstring) : jsstring :=
  match s with
  | [] => []
  | c :: s' => if isSpace c then dropSpaces s' else s
  end.

(** [s.trim()] *)
Definition trim (s : jsstring) : jsstring :=
  reverse (dropSpaces (reverse (dropSpaces s))).

(** ** Tokenizer *)

Definition stopWords : list jsstring :=
  js <$> [ "the"; "is"; "at"; "which"; "on"; "a"; "an"; "and"; "or"; "but";
           "in"; "with"; "to"; "for"; "of"; "as"; "by"; "that"; "this";
           "it"; "from"; "be"; "are"; "was"; "were"; "been"; "have"; "has";
           "had"; "do"; "does"; "did"; "will"; "would"; "could"; "should" ]%string.

Definition isStopWord (word : jsstring) : bool := bool_decide (word ∈ stopWords).

Definition tokenize (text : jsstring) : list jsstring :=
  filter (λ token, ¬ isStopWord token)
    (filter (λ token, (2 < length token)%nat)
       (splitWhitespace (replacePunct (toLowerCase text)))).


(** ** Data model *)

Record Document := {
  doc_id : jsstring;
  doc_name : jsstring;
  doc_content : jsstring;
  doc_addedAt : jsstring;
  doc_chunkCount : nat;
  doc_chatId : jsstring
}.

Record Chunk := {
  chunk_id : jsstring;
  chunk_docId : jsstring;
  chunk_docName : jsstring;
  chunk_content : jsstring;
  chunk_index : nat;
  chunk_tokens : list jsstring;
  chunk_createdAt : jsstring
}.

(** The fields of a [RAGEngine] object. [documents] is a [Map] keyed by
    document id; nothing below depends on its iteration order. *)
Record RAGEngine := {
  documents : gmap jsstring Document;
  chunks : list Chunk;
  chunkSize : Z;
  chunkOverlap : Z
}.

(** [new RAGEngine(cacheManager)] *)
Definition newEngine : RAGEngine :=
  {| documents := ∅; chunks := []; chunkSize := 600; chunkOverlap := 100 |}.

Definition updateConfig (e : RAGEngine) (size overlap : Z) : RAGEngine :=
  {| documents := documents e; chunks := chunks e;
     chunkSize := size; chunkOverlap := overlap |}.

(** ** Array slices *)

(** The index that [Array.prototype.slice] makes of a relative position. *)
Definition sliceIndex (len : nat) (i : Z) : nat :=
  Z.to_nat (if (i <? 0)%Z then Z.max (Z.of_nat len + i) 0 else Z.min i (Z.of_nat len)).

(** [l.slice(start)] *)
Definition sliceFrom {A} (start : Z) (l : list A) : list A :=
  drop (sliceIndex (length l) start) l.

(** [l.slice(0, stop)] *)
Definition sliceTo {A} (stop : Z) (l : list A) : list A :=
  take (sliceIndex (length l) stop) l.

(** ** Chunker *)

(** The template literal [${index}]. *)
Definition decimal (n : nat) : jsstring := js (NilZero.string_of_uint (Nat.to_uint n)).

Definition createChunk (content docId fileName : jsstring) (index : nat)
    (createdAt : jsstring) : Chunk :=
  {| chunk_id := docId ++ js "_chunk_" ++ decimal index;
     chunk_docId := docId;
     chunk_docName := fileName;
     chunk_content := trim content;
     chunk_index := index;
     chunk_tokens := tokenize content;
     chunk_createdAt := createdAt |}.

Section Chunker.
(** [size] and [overlap] are [this.chunkSize] and [this.chunkOverlap];
    [clock i] is what [new Date().toISOString()] returns when the chunk of
    ordinal [i] is created. *)
Variables (size overlap : Z) (clock : nat → jsstring).
Variables (docId fileName : jsstring).

(** The words carried over into the next buffer:
    [words.slice(-Math.floor(this.chunkOverlap / 5))]. *)
Definition overlapWords (currentChunk : jsstring) : list jsstring :=
  sliceFrom (- (overlap / 5))%Z (split SP currentChunk).

(** The condition of the [if] in the loop. *)
Definition closes (currentChunk line : jsstring) : bool :=
  (Z.of_nat (length currentChunk) + Z.of_nat (length line) >? size)%Z
  && (0 <? length currentChunk)%nat.

(** One iteration of the [for] loop over the lines; the state is
    [(chunks, currentChunk, chunkIndex)]. *)
Definition chunkStep (st : list Chunk * jsstring * nat) (line : jsstring)
    : list Chunk * jsstring * nat :=
  let '(chunks, currentChunk, chunkIndex) := st in
  if closes currentChunk line then
    (chunks ++ [createChunk currentChunk docId fileName chunkIndex (clock chunkIndex)],
     join [SP] (overlapWords currentChunk) ++ [LF] ++ line,
     S chunkIndex)
  else
    (chunks,
     currentChunk ++ (if (0 <? length currentChunk)%nat then [LF] else []) ++ line,
     chunkIndex).

Definition chunkDocument (content : jsstring) : list Chunk :=
  let '(chunks, currentChunk, chunkIndex) :=
    fold_left chunkStep (split LF content) ([], [], 0%nat) in
  if (0 <? length currentChunk)%nat
  then chunks ++ [createChunk currentChunk docId fileName chunkIndex (clock chunkIndex)]
  else chunks.
End Chunker.

(** ** Relevance scorer *)

#[local] Instance Rlt_decision (x y : R) : Decision (x < y)%R := Rlt_dec x y.
#[local] Instance Rle_decision (x y : R) : Decision (x <= y)%R := Rle_dec x y.
#[local] Instance Req_decision : EqDecision R := Req_dec_T.

(** [tokens.filter(t => t === token).length] *)
Definition occurrences (token : jsstring) (tokens : list jsstring) : nat :=
  length (filter (λ t, t = token) tokens).

Section Scorer.
(** [corpus] is [this.chunks] at the time of the call. *)
Variable corpus : list Chunk.

(** [chunkTokens.filter(t => t === token).length / chunkTokens.length] *)
Definition tf (token : jsstring) (chunkTokens : list jsstring) : R :=
  (INR (occurrences token chunkTokens) / INR (length chunkTokens))%R.

(** [this.chunks.filter(chunk => chunk.tokens.includes(token)).length] *)
Definition docsWithTerm (token : jsstring) : nat :=
  length (filter (λ chunk, token ∈ chunk_tokens chunk) corpus).

(** [Math.log(this.chunks.length / (docsWithTerm + 1))]. The argument is
    positive whenever the corpus holds a chunk, which is the case at every
    call the engine makes. *)
Definition idf (token : jsstring) : R :=
  ln (INR (length corpus) / INR (docsWithTerm token + 1)).

(** The body of the [forEach] over the query tokens: [score] is the
    running total. *)
Definition accumulate (chunkTokens : list jsstring) (score : R) (token : jsstring) : R :=
  if decide (token ∈ chunkTokens)
  then (score + tf token chunkTokens * idf token)%R
  else score.

(** The value of [score] when the [forEach] has finished. *)
Definition runningTotal (queryTokens chunkTokens : list jsstring) : R :=
  fold_left (accumulate chunkTokens) queryTokens 0%R.

Definition calculateRelevanceScore (queryTokens chunkTokens : list jsstring) : R :=
  if decide (length queryTokens = 0 ∨ length chunkTokens = 0) then 0%R
  else (runningTotal queryTokens chunkTokens / sqrt (INR (length queryTokens)))%R.
End Scorer.

(** ** Sorting *)

(** [Array.prototype.sort(compare)] is stable, and for a comparator that
    orders the elements consistently its result is determined: the one
    ordered rearrangement that keeps equal elements in their former order.
    Insertion from the right computes it: [x] stood before every element of
    the sorted rest, so it goes before the first [y] that it does not
    follow ([compare x y <= 0]). *)
Fixpoint insertBy {A} (compare : A → A → R) (x : A) (l : list A) : list A :=
  match l with
  | [] => [x]
  | y :: l' =>
      if decide (compare x y <= 0)%R then x :: l else y :: insertBy compare x l'
  end.

Definition sortBy {A} (compare : A → A → R) (l : list A) : list A :=
  foldr (insertBy compare) [] l.

(** ** Retrieval index *)

Record RetrievalResult := {
  content : jsstring;
  docName : jsstring;
  score : R;
  chunkId : jsstring
}.

(** [{ chunk, score }] *)
Definition ScoredChunk : Type := Chunk * R.

Definition toResult (item : ScoredChunk) : RetrievalResult :=
  {| content := chunk_content item.1;
     docName := chunk_docName item.1;
     score := item.2;
     chunkId := chunk_id item.1 |}.

Definition scoreChunks (e : RAGEngine) (query : jsstring) : list ScoredChunk :=
  let queryTokens := tokenize query in
  (λ chunk, (chunk, calculateRelevanceScore (chunks e) queryTokens (chunk_tokens chunk)))
    <$> chunks e.

(** [(a, b) => b.score - a.score] *)
Definition byScoreDesc (a b : ScoredChunk) : R := (b.2 - a.2)%R.

Definition retrieveRelevantChunks (e : RAGEngine) (query : jsstring) (topK : Z)
    : list RetrievalResult :=
  if decide (length (chunks e) = 0) then []
  else
    let scoredChunks := sortBy byScoreDesc (scoreChunks e query) in
    toResult <$> filter (λ item, (0 < item.2)%R) (sliceTo topK scoredChunks).

(** What the external store answers to one request. *)
Inductive StoreOutcome :=
  | Resolved
  | Rejected (message : jsstring).

(** What [addDocument] reads from its environment: the identifier made by
    [generateDocId], the time stamps, and the answers of the store. *)
Record AddEnv := {
  env_docId : jsstring;
  env_addedAt : jsstring;
  env_clock : nat → jsstring;
  env_saveDocument : StoreOutcome;
  env_saveChunks : StoreOutcome
}.

Inductive AddResult :=
  | AddSuccess (docId : jsstring) (chunkCount : nat)
  | AddFailure (error : jsstring).

(** [addDocument]: the document and its chunks are put into the engine
    before the first [await]; the [catch] turns a rejection of either store
    request into a failure result, and [saveChunks] is not called when
    [saveDocument] has rejected. *)
Definition addDocument (e : RAGEngine) (env : AddEnv)
    (fileName content chatId : jsstring) : RAGEngine * AddResult :=
  let docId := env_docId env in
  let newChunks :=
    chunkDocument (chunkSize e) (chunkOverlap e) (env_clock env) docId fileName content in
  let document :=
    {| doc_id := docId; doc_name := fileName; doc_content := content;
       doc_addedAt := env_addedAt env; doc_chunkCount := length newChunks;
       doc_chatId := chatId |} in
  let e' :=
    {| documents := <[docId := document]> (documents e);
       chunks := chunks e ++ newChunks;
       chunkSize := chunkSize e; chunkOverlap := chunkOverlap e |} in
  match env_saveDocument env with
  | Rejected message => (e', AddFailure message)
  | Resolved =>
      match env_saveChunks env with
      | Rejected message => (e', AddFailure message)
      | Resolved => (e', AddSuccess docId (length newChunks))
      end
  end.

Record RemoveEnv := {
  env_deleteDocument : StoreOutcome;
  env_deleteChunksByDocId : StoreOutcome
}.

Inductive RemoveResult :=
  | RemoveSuccess
  | RemoveFailure (error : jsstring).

(** [removeDocument]: here too the engine is updated before the store. *)
Definition removeDocument (e : RAGEngine) (env : RemoveEnv) (docId : jsstring)
    : RAGEngine * RemoveResult :=
  let e' :=
    {| documents := delete docId (documents e);
       chunks := filter (λ chunk, chunk_docId chunk ≠ docId) (chunks e);
       chunkSize := chunkSize e; chunkOverlap := chunkOverlap e |} in
  match env_deleteDocument env with
  | Rejected message => (e', RemoveFailure message)
  | Resolved =>
      match env_deleteChunksByDocId env with
      | Rejected message => (e', RemoveFailure message)
      | Resolved => (e', RemoveSuccess)
      end
  end.

(** A JavaScript object whose properties hold counts, as the list of its
    own properties; reading a property that the object does not have gives
    [undefined] ([None]). *)
Definition JSObject : Type := list (string * nat).

Fixpoint getProperty (o : JSObject) (key : string) : option nat :=
  match o with
  | [] => None
  | (k, v) :: o' => if String.eqb k key then Some v else getProperty o' key
  end.

(** [Array.from(this.documents.values()).reduce((sum, doc) => sum + doc.content.length, 0)] *)
Definition totalContentLength (docs : gmap jsstring Document) : nat :=
  map_fold (λ _ doc sum, sum + length (doc_content doc)) 0 docs.

Definition getStats (e : RAGEngine) : JSObject :=
  [ ("documentCount"%string, size (documents e));
    ("chunkCount"%string, length (chunks e));
    ("totalSize"%string, totalContentLength (documents e)) ].

(** [Array.from(this.documents.values())], up to the order. *)
Definition getAllDocuments (e : RAGEngine) : list Document :=
  (map_to_list (documents e)).*2.

(** ** The application around the engine *)

(** The fields of [RAGChatbotApp] that decide what is retrieved and listed. *)
Record App := {
  ragEngine : RAGEngine;
  currentChatId : jsstring;
  chatSpecificKnowledge : bool;
  topKChunks : Z
}.

(** The scope [handleFileUpload] passes to [addDocument]. *)
Definition uploadScope (app : App) : jsstring :=
  if chatSpecificKnowledge app then currentChatId app else js "global".

(** [relevantChunks] of [handleSendMessage]: the chunks sent along with the
    message of the current conversation. *)
Definition handleSendMessage_relevantChunks (app : App) (message : jsstring)
    : list RetrievalResult :=
  retrieveRelevantChunks (ragEngine app) message (topKChunks app).

(** The scope filter of [updateDocumentList]. An empty [chatId] is falsy. *)
Definition listedDocuments (app : App) (allDocs : list Document) : list Document :=
  if chatSpecificKnowledge app
  then filter (λ doc, doc_chatId doc = currentChatId app) allDocs
  else filter (λ doc, doc_chatId doc = [] ∨ doc_chatId doc = js "global") allDocs.

(** What [updateStats] writes into the three counters of the page; [None]
    stands for a counter that is left as it was, and for [undefined]. *)
Record StatsPanel := {
  docCountText : option nat;
  chunkCountText : option nat;
  charCountText : option nat
}.

Definition updateStats (e : RAGEngine) : StatsPanel :=
  let stats := getStats e in
  {| docCountText := getProperty stats "documentCount";
     chunkCountText := getProperty stats "chunkCount";
     charCountText :=
       match getProperty stats "totalChars" with
       | Some (S n) => Some (S n)
       | _ => None
       end |}.

(** ** The scorer and the retrieval in double precision *)

(** The same functions with the numbers of the engine: a score is a
    binary64 number, and [/], [*], [+], [-], [Math.sqrt], [>] are the
    operations of IEEE 754 on them. *)
Module Float64.
Import PrimFloat.

(** A length or a count as a number: the double nearest to [n], which is
    [n] itself below 2^53 (an array holds fewer than 2^32 elements). *)
Definition ofNat (n : nat) : float :=
  FloatOps.SF2Prim
    (SpecFloat.binary_normalize FloatOps.prec FloatOps.emax (Z.of_nat n) 0 false).

Section Scorer.
(** [log] is [Math.log], whose result ECMAScript leaves to the
    implementation ("implementation-approximated"); [corpus] is
    [this.chunks] at the time of the call. *)
Variable log : float → float.
Variable corpus : list Chunk.

Definition tf (token : jsstring) (chunkTokens : list jsstring) : float :=
  (ofNat (occurrences token chunkTokens) / ofNat (length chunkTokens))%float.

Definition idf (token : jsstring) : float :=
  log (ofNat (length corpus) / (ofNat (docsWithTerm corpus token) + 1))%float.

Definition accumulate (chunkTokens : list jsstring) (score : float) (token : jsstring)
    : float :=
  if decide (token ∈ chunkTokens)
  then (score + tf token chunkTokens * idf token)%float
  else score.

Definition runningTotal (queryTokens chunkTokens : list jsstring) : float :=
  fold_left (accumulate chunkTokens) queryTokens 0%float.

Definition calculateRelevanceScore (queryTokens chunkTokens : list jsstring) : float :=
  if decide (length queryTokens = 0 ∨ length chunkTokens = 0) then 0%float
  else (runningTotal queryTokens chunkTokens / sqrt (ofNat (length queryTokens)))%float.
End Scorer.

(** [Array.prototype.sort(compare)], as above. The sort reads the
    comparator's value [v] as "[y] goes first" when [v > 0] and as "keep
    [x] first" when [v < 0], [v] is zero or [v] is NaN. *)
Fixpoint insertBy {A} (compare : A → A → float) (x : A) (l : list A) : list A :=
  match l with
  | [] => [x]
  | y :: l' =>
      if (0 <? compare x y)%float then y :: insertBy compare x l' else x :: l
  end.

Definition sortBy {A} (compare : A → A → float) (l : list A) : list A :=
  foldr (insertBy compare) [] l.

Record RetrievalResult := {
  content : jsstring;
  docName : jsstring;
  score : float;
  chunkId : jsstring
}.

(** [{ chunk, score }] *)
Definition ScoredChunk : Type := Chunk * float.

Definition toResult (item : ScoredChunk) : RetrievalResult :=
  {| content := chunk_content item.1;
     docName := chunk_docName item.1;
     score := item.2;
     chunkId := chunk_id item.1 |}.

Definition scoreChunks (log : float → float) (e : RAGEngine) (query : jsstring)
    : list ScoredChunk :=
  let queryTokens := tokenize query in
  (λ chunk, (chunk, calculateRelevanceScore log (chunks e) queryTokens (chunk_tokens chunk)))
    <$> chunks e.

(** [(a, b) => b.score - a.score] *)
Definition byScoreDesc (a b : ScoredChunk) : float := (b.2 - a.2)%float.

Definition retrieveRelevantChunks (log : float → float) (e : RAGEngine)
    (query : jsstring) (topK : Z) : list RetrievalResult :=
  if decide (length (chunks e) = 0) then []
  else
    let scoredChunks := sortBy byScoreDesc (scoreChunks log e query) in
    toResult <$> filter (λ item, (0 <? item.2)%float = true) (sliceTo topK scoredChunks).
End Float64.

(** ** Definitions of the properties *)

(** Splitting on runs of white space as the specification words it: the
    tokens are the maximal runs of code units that are not white space. *)
Fixpoint fields (cur s : jsstring) : list jsstring :=
  match s with
  | [] => match cur with [] => [] | _ => [cur] end
  | c :: s' =>
      if isSpace c then
        match cur with [] => fields [] s' | _ => cur :: fields [] s' end
      else fields (cur ++ [c]) s'
  end.

(** The reference pipeline of the tokenizer. *)
Definition tokenize_spec (text : jsstring) : list jsstring :=
  let lowered := lowerChar <$> text in
  let cleaned := (λ c, if isWordChar c || isSpace c then c else SP) <$> lowered in
  let tokens := fields [] cleaned in
  let longEnough := filter (λ t, ¬ (length t ≤ 2)) tokens in
  filter (λ t, t ∉ stopWords) longEnough.

(** The chunks stored for one document, in storage order. *)
Definition chunksOf (e : RAGEngine) (docId : jsstring) : list Chunk :=
  filter (λ chunk, chunk_docId chunk = docId) (chunks e).

(** The states of the index that are reached as long as [generateDocId]
    keeps the promise of its comment ("Generate a unique document ID"):
    every identifier it returns is not the key of a stored document at that
    time. The function itself joins [Date.now()] and a random suffix and
    looks nothing up, so this is a condition on the run and no consequence
    of the code; [collidingEngine] below is a state outside of it. *)
Inductive reachable : RAGEngine → Prop :=
  | reachable_new : reachable newEngine
  | reachable_updateConfig e size overlap :
      reachable e → reachable (updateConfig e size overlap)
  | reachable_addDocument e env fileName content chatId :
      reachable e →
      documents e !! env_docId env = None →
      reachable (addDocument e env fileName content chatId).1
  | reachable_removeDocument e env docId :
      reachable e → reachable (removeDocument e env docId).1.

(** A text without the line feeds it starts with. *)
Fixpoint dropLineFeeds (s : jsstring) : jsstring :=
  match s with
  | [] => []
  | c :: s' => if Ascii.eqb c LF then dropLineFeeds s' else s
  end.

(** What one occurrence of [token] in the query adds to the running total
    of a chunk: its [tf * idf] when the chunk holds the token. *)
Definition contribution (corpus : list Chunk) (chunkTokens : list jsstring)
    (token : jsstring) : R :=
  if decide (token ∈ chunkTokens)
  then (tf token chunkTokens * idf corpus token)%R else 0%R.

(** The invariant of the index: a stored chunk belongs to a stored
    document, and the chunks stored for a document carry the ordinals
    0, 1, ... in storage order and are as many as its [chunkCount]. *)
Definition indexInvariant (e : RAGEngine) : Prop :=
  (∀ chunk, chunk ∈ chunks e →
     ∃ doc, documents e !! chunk_docId chunk = Some doc)
  ∧ (∀ docId doc, documents e !! docId = Some doc →
       doc_id doc = docId
       ∧ chunk_index <$> chunksOf e docId = seq 0 (length (chunksOf e docId))
       ∧ doc_chunkCount doc = length (chunksOf e docId)).

(** A retrieved item scores above zero. *)
Definition relevant (item : ScoredChunk) : Prop := (0 < item.2)%R.

#[local] Instance relevant_dec item : Decision (relevant item) := Rlt_dec 0 item.2.

(** Sum of a real-valued function over a list. *)
Definition sumOver {A} (f : A → R) (l : list A) : R :=
  foldr (λ x acc, (f x + acc)%R) 0%R l.

(** ** Sample states *)

(** An environment in which [generateDocId] returns [docId] and the store
    answers [saveDocument] with [outcome]. *)
Definition sampleEnv (docId : string) (outcome : StoreOutcome) : AddEnv :=
  {| env_docId := js docId;
     env_addedAt := js "2024-01-01T00:00:00.000Z";
     env_clock := λ _, js "2024-01-01T00:00:00.000Z";
     env_saveDocument := outcome;
     env_saveChunks := Resolved |}.

(** Three uploads: the first while the conversation "chat_1" is open with
    its own knowledge base, the other two with the global scope. *)
Definition sampleEngine : RAGEngine :=
  let e1 := (addDocument newEngine (sampleEnv "doc_1" Resolved)
               (js "a.txt") (js "alpha") (js "chat_1")).1 in
  let e2 := (addDocument e1 (sampleEnv "doc_2" Resolved)
               (js "b.txt") (js "beta") (js "global")).1 in
  (addDocument e2 (sampleEnv "doc_3" Resolved)
     (js "c.txt") (js "gamma") (js "global")).1.

(** Two uploads within one millisecond for which [Math.random] gives the
    same suffix: [generateDocId] returns the same identifier twice. *)
Definition collidingEngine : RAGEngine :=
  let e1 := (addDocument newEngine (sampleEnv "doc_1700000000000_k3j9x0q2m" Resolved)
               (js "a.txt") (js "alpha") (js "global")).1 in
  (addDocument e1 (sampleEnv "doc_1700000000000_k3j9x0q2m" Resolved)
     (js "z.txt") (js "omega") (js "global")).1.

(** The application later on, in the conversation "chat_2". *)
Definition sampleApp : App :=
  {| ragEngine := sampleEngine;
     currentChatId := js "chat_2";
     chatSpecificKnowledge := true;
     topKChunks := 3 |}.

(** Five uploads with the global scope. *)
Definition rankedEngine : RAGEngine :=
  let e1 := (addDocument newEngine (sampleEnv "doc_1" Resolved)
               (js "a.txt") (js "alpha beta gamma") (js "global")).1 in
  let e2 := (addDocument e1 (sampleEnv "doc_2" Resolved)
               (js "b.txt") (js "alpha alpha delta") (js "global")).1 in
  let e3 := (addDocument e2 (sampleEnv "doc_3" Resolved)
               (js "c.txt") (js "beta epsilon zeta") (js "global")).1 in
  let e4 := (addDocument e3 (sampleEnv "doc_4" Resolved)
               (js "d.txt") (js "alpha kappa lambda") (js "global")).1 in
  (addDocument e4 (sampleEnv "doc_5" Resolved)
     (js "e.txt") (js "eta theta iota") (js "global")).1.

(** Three uploads; the first chunk holds "tango" once and "uniform" twice. *)
Definition tiedEngine : RAGEngine :=
  let e1 := (addDocument newEngine (sampleEnv "doc_1" Resolved)
               (js "a.txt") (js "tango uniform uniform") (js "global")).1 in
  let e2 := (addDocument e1 (sampleEnv "doc_2" Resolved)
               (js "b.txt") (js "victor") (js "global")).1 in
  (addDocument e2 (sampleEnv "doc_3" Resolved)
     (js "c.txt") (js "whiskey") (js "global")).1.

(** [Math.log] at the quotients that occur in an index of five chunks
    (5/2, 5/3, 5/4, 5/5 and 5/6) and at 3/2, each the double nearest to
    the logarithm: 0.9162907318741551, 0.5108256237659907,
    0.22314355131420976, 0, -0.1823215567939546 and 0.4054651081081644.
    Elsewhere the table has no entry (NaN). *)
Section LogTable.
Import PrimFloat.

Definition logTable (x : float) : float :=
  if (x =? 0x1.4p+1)%float then 0x1.d5240f0e0e078p-1%float
  else if (x =? 0x1.aaaaaaaaaaaabp+0)%float then 0x1.058aefa811452p-1%float
  else if (x =? 0x1.4p+0)%float then 0x1.c8ff7c79a9a22p-3%float
  else if (x =? 1)%float then 0%float
  else if (x =? 0x1.aaaaaaaaaaaabp-1)%float then (-0x1.7565011e49675p-3)%float
  else if (x =? 0x1.8p+0)%float then 0x1.9f323ecbf984cp-2%float
  else nan.
End LogTable.

(** The order of the doubles: a double that is not NaN has a place in the
    lexicographic order of triples of integers (its class and sign, then
    its exponent, then its mantissa), and a comparison of two doubles
    compares their places. *)
Definition place (x : SpecFloat.spec_float) : Z * Z * Z :=
  match x with
  | SpecFloat.S754_zero _ | SpecFloat.S754_nan => (0, 0, 0)
  | SpecFloat.S754_infinity s => (if s then -2 else 2, 0, 0)
  | SpecFloat.S754_finite false m e => (1, e, Z.pos m)
  | SpecFloat.S754_finite true m e => (-1, - e, Z.neg m)
  end%Z.

Definition before (p q : Z * Z * Z) : Prop :=
  (p.1.1 < q.1.1 ∨ p.1.1 = q.1.1 ∧ (p.1.2 < q.1.2 ∨ p.1.2 = q.1.2 ∧ p.2 < q.2))%Z.

(** ** Definitions of the further properties *)

(** A code unit that a token can hold: a digit, a lower-case letter a-z or
    the underscore. *)
Definition isTokenChar (c : ascii) : bool :=
  let n := code c in
  ((48 <=? n) && (n <=? 57) || (n =? 95) || (97 <=? n) && (n <=? 122))%N.

(** What [toLowerCase] followed by the replacement of [tokenize] makes of
    one code unit. *)
Definition normChar (c : ascii) : ascii :=
  let c' := lowerChar c in
  if isWordChar c' || isSpace c' then c' else SP.

(** What holds of the chunks stored in the engine: the identifiers differ,
    and each chunk has the identifier made of its document and ordinal, the
    tokens of its stored content, a content without white space at either
    end, and the name of a stored document, its own. *)
Definition chunkInvariant (e : RAGEngine) : Prop :=
  NoDup (chunk_id <$> chunks e)
  ∧ ∀ chunk, chunk ∈ chunks e →
      chunk_id chunk = chunk_docId chunk ++ js "_chunk_" ++ decimal (chunk_index chunk)
      ∧ chunk_tokens chunk = tokenize (chunk_content chunk)
      ∧ trim (chunk_content chunk) = chunk_content chunk
      ∧ ∃ doc, documents e !! chunk_docId chunk = Some doc
               ∧ doc_name doc = chunk_docName chunk.

(** ** The rest of the engine *)

(** What the store answers to a read of all the records of one kind. *)
Inductive StoreRead (A : Type) :=
  | Fetched (records : list A)
  | ReadRejected (message : jsstring).
Arguments Fetched {A} records.
Arguments ReadRejected {A} message.

Record LoadEnv := {
  env_getAllDocuments : StoreRead Document;
  env_getAllChunks : StoreRead Chunk
}.

Inductive LoadResult :=
  | LoadSuccess (documentCount chunkCount : nat)
  | LoadFailure (error : jsstring).

(** [loadFromCache]: both reads are awaited before the engine is touched;
    then every cached document is [set] under its [id] and the chunk array
    is replaced by the cached one. *)
Definition loadFromCache (e : RAGEngine) (env : LoadEnv) : RAGEngine * LoadResult :=
  match env_getAllDocuments env with
  | ReadRejected message => (e, LoadFailure message)
  | Fetched cachedDocs =>
      match env_getAllChunks env with
      | ReadRejected message => (e, LoadFailure message)
      | Fetched cachedChunks =>
          let docs :=
            fold_left (λ docs doc, <[doc_id doc := doc]> docs) cachedDocs (documents e) in
          ({| documents := docs; chunks := cachedChunks;
              chunkSize := chunkSize e; chunkOverlap := chunkOverlap e |},
           LoadSuccess (size docs) (length cachedChunks))
      end
  end.

Record ClearEnv := {
  env_clearAllDocuments : StoreOutcome;
  env_clearAllChunks : StoreOutcome
}.

(** [clearAll] has no [catch]: a rejection of the store is thrown on to the
    caller. *)
Inductive ClearResult :=
  | ClearDone
  | ClearThrows (message : jsstring).

Definition clearAll (e : RAGEngine) (env : ClearEnv) : RAGEngine * ClearResult :=
  let e' :=
    {| documents := ∅; chunks := [];
       chunkSize := chunkSize e; chunkOverlap := chunkOverlap e |} in
  match env_clearAllDocuments env with
  | Rejected message => (e', ClearThrows message)
  | Resolved =>
      match env_clearAllChunks env with
      | Rejected message => (e', ClearThrows message)
      | Resolved => (e', ClearDone)
      end
  end.

(** [s.startsWith(prefix)] *)
Fixpoint startsWith (s prefix : jsstring) {struct prefix} : bool :=
  match prefix, s with
  | [], _ => true
  | _ :: _, [] => false
  | p :: prefix', c :: s' => Ascii.eqb c p && startsWith s' prefix'
  end.

(** [s.includes(searchString)] *)
Fixpoint includes (s searchString : jsstring) : bool :=
  startsWith s searchString
  || match s with
     | [] => false
     | _ :: s' => includes s' searchString
     end.

(** [searchDocuments], in the order of [getAllDocuments]. *)
Definition searchDocuments (e : RAGEngine) (searchTerm : jsstring) : list Document :=
  let term := toLowerCase searchTerm in
  filter (λ doc, includes (toLowerCase (doc_name doc)) term) (getAllDocuments e).

(** ** The generation client *)

(** [{ role, content }], an entry of the conversation history. *)
Record Message := {
  msg_role : jsstring;
  msg_content : jsstring
}.

(** [{ role, parts: [{ text }, ...] }], an entry of a request. *)
Record Content := {
  content_role : jsstring;
  content_parts : list jsstring
}.

(** [truncateHistory], called with an array. *)
Definition truncateHistory (conversationHistory : list Message) (maxMessages : Z)
    : list Message :=
  if (Z.of_nat (length conversationHistory) <=? maxMessages)%Z then conversationHistory
  else sliceFrom (- maxMessages)%Z conversationHistory.

Definition prepareContents (conversationHistory : list Message) (currentPrompt : jsstring)
    : list Content :=
  ((λ msg, {| content_role :=
                if decide (msg_role msg = js "user") then js "user" else js "model";
              content_parts := [msg_content msg] |}) <$> conversationHistory)
  ++ [ {| content_role := js "user"; content_parts := [currentPrompt] |} ].

(** The text of the template literal before the context, between the
    context and the question, and after the question. *)
Definition promptHead : jsstring :=
  js "You are a helpful AI assistant. Use the following context from documents to answer the user's question. If the answer cannot be found in the context, say so and provide a general response."
  ++ [LF; LF] ++ js "CONTEXT:" ++ [LF].

Definition promptMiddle : jsstring :=
  [LF; LF] ++ js "---" ++ [LF; LF] ++ js "USER QUESTION:" ++ [LF].

Definition promptTail : jsstring :=
  [LF; LF]
  ++ js "Please provide a comprehensive answer based on the context above. If you reference information from the context, you can mention which document it comes from.".

(** [`[Document ${index + 1}: ${chunk.docName}]\n${chunk.content}`] *)
Definition contextPart (index : nat) (chunk : RetrievalResult) : jsstring :=
  js "[Document " ++ decimal (index + 1) ++ js ": " ++ docName chunk ++ js "]"
  ++ [LF] ++ content chunk.

Definition buildRAGPrompt (userMessage : jsstring) (relevantChunks : list RetrievalResult)
    : jsstring :=
  if decide (length relevantChunks = 0) then userMessage
  else
    let contextParts := imap contextPart relevantChunks in
    let context := join ([LF; LF] ++ js "---" ++ [LF; LF]) contextParts in
    promptHead ++ context ++ promptMiddle ++ userMessage ++ promptTail.

(** [contents] of the request that [generateResponse] sends. *)
Definition generateResponse_contents (userMessage : jsstring)
    (conversationHistory : list Message) (relevantChunks : list RetrievalResult)
    : list Content :=
  prepareContents conversationHistory (buildRAGPrompt userMessage relevantChunks).

(** What [handleSendMessage] hands to [generateResponse] and what is sent:
    the message is pushed on the history, the chunks are retrieved, and the
    history without its last entry is cut to [settings.maxContext]. *)
Definition handleSendMessage_contents (app : App) (conversationHistory : list Message)
    (maxContext : Z) (message : jsstring) : list Content :=
  let history :=
    conversationHistory ++ [ {| msg_role := js "user"; msg_content := message |} ] in
  let relevantChunks := handleSendMessage_relevantChunks app message in
  let contextHistory := truncateHistory (sliceTo (-1) history) maxContext in
  generateResponse_contents message contextHistory relevantChunks.

(** [Math.ceil(text.length / 4)] *)
Definition estimateTokens (text : jsstring) : nat := (length text + 3) / 4.

Record TokenCheck := {
  withinLimit : bool;
  estimatedTokens : nat;
  maxTokens : Z
}.

Definition checkTokenLimit (conversationHistory : list Message)
    (relevantChunks : list RetrievalResult) (limit : Z) : TokenCheck :=
  let totalTokens :=
    fold_left (λ total chunk, total + estimateTokens (content chunk)) relevantChunks
      (fold_left (λ total msg, total + estimateTokens (msg_content msg))
         conversationHistory 0) in
  {| withinLimit := (Z.of_nat totalTokens <? limit)%Z;
     estimatedTokens := totalTokens;
     maxTokens := limit |}.

(** ** The chat history of the application *)

(** [formatTimeAgo]: [now] is [Date.now()], both times are in milliseconds,
    and [localeDate] is what [toLocaleDateString] gives for [timestamp]. *)
Definition formatTimeAgo (now timestamp : Z) (localeDate : jsstring) : jsstring :=
  let seconds := ((now - timestamp) / 1000)%Z in
  if (seconds <? 60)%Z then js "Just now"
  else if (seconds <? 3600)%Z then decimal (Z.to_nat (seconds / 60)) ++ js "m ago"
  else if (seconds <? 86400)%Z then decimal (Z.to_nat (seconds / 3600)) ++ js "h ago"
  else if (seconds <? 604800)%Z then decimal (Z.to_nat (seconds / 86400)) ++ js "d ago"
  else localeDate.

(** The title that [saveCurrentChatToHistory] gives to a conversation. *)
Definition chatTitle (conversationHistory : list Message) : jsstring :=
  match List.find (λ msg, bool_decide (msg_role msg = js "user")) conversationHistory with
  | Some firstUserMsg =>
      take 50 (msg_content firstUserMsg)
      ++ (if (50 <? length (msg_content firstUserMsg))%nat then js "..." else [])
  | None => js "Untitled Chat"
  end.

(** ** Local storage of the cache manager *)

(** The state of [localStorage] is the map of its items. Two things of the
    environment decide whether an access throws: [storageDenied], the page
    may not use the storage and every access throws, and [quotaExceeded],
    [setItem] throws. Each method of the cache manager catches what its
    accesses throw. *)
Record StorageEnv := {
  storageDenied : bool;
  quotaExceeded : bool
}.

Definition KEY_API_KEY : string := "gemini_api_key".
Definition KEY_THEME : string := "theme_preference".

Definition saveItem (env : StorageEnv) (items : gmap string jsstring)
    (key : string) (value : jsstring) : gmap string jsstring * bool :=
  if storageDenied env || quotaExceeded env then (items, false)
  else (<[key := value]> items, true).

Definition saveApiKey (env : StorageEnv) (items : gmap string jsstring)
    (apiKey : jsstring) : gmap string jsstring * bool :=
  saveItem env items KEY_API_KEY apiKey.

(** [getApiKey]: the stored key, or [null]. *)
Definition getApiKey (env : StorageEnv) (items : gmap string jsstring) : option jsstring :=
  if storageDenied env then None else items !! KEY_API_KEY.

Definition removeApiKey (env : StorageEnv) (items : gmap string jsstring)
    : gmap string jsstring * bool :=
  if storageDenied env then (items, false) else (delete KEY_API_KEY items, true).

Definition saveTheme (env : StorageEnv) (items : gmap string jsstring)
    (theme : jsstring) : gmap string jsstring * bool :=
  saveItem env items KEY_THEME theme.

(** [localStorage.getItem(this.KEYS.THEME) || 'light']: the empty string is
    falsy. *)
Definition getTheme (env : StorageEnv) (items : gmap string jsstring) : jsstring :=
  if storageDenied env then js "light"
  else
    match items !! KEY_THEME with
    | Some (c :: theme) => c :: theme
    | _ => js "light"
    end.

Record ClearCacheEnv := {
  env_storage : StorageEnv;
  env_clearDocuments : StoreOutcome;
  env_clearChunks : StoreOutcome;
  env_clearConversations : StoreOutcome
}.

(** [clearAllCache]: the three object stores are cleared one after the
    other, then the items of [localStorage] are dropped and the API key, if
    there is a non-empty one, is put back. Any rejection or exception on
    the way ends the method with [false]. *)
Definition clearAllCache (env : ClearCacheEnv) (items : gmap string jsstring)
    : gmap string jsstring * bool :=
  match env_clearDocuments env, env_clearChunks env, env_clearConversations env with
  | Resolved, Resolved, Resolved =>
      let apiKey := getApiKey (env_storage env) items in
      if storageDenied (env_storage env) then (items, false)
      else
        match apiKey with
        | Some (c :: key) => ((saveApiKey (env_storage env) ∅ (c :: key)).1, true)
        | _ => (∅, true)
        end
  | _, _, _ => (items, false)
  end.

(** * Properties *)

(** ** Tokenizer *)

Section SplitSpaces.
Context (P : jsstring → Prop) `{!∀ x, Decision (P x)}.
Hypothesis P_nonempty : ¬ P [].

(** The empty pieces that [split(/\s+/)] leaves at the ends are the only
    difference with the maximal runs, and a filter that rejects the empty
    string removes them. *)
Lemma filter_splitSpaces s : ∀ inrun cur,
  (inrun = true → cur = []) →
  filter P (splitSpaces inrun cur s) = filter P (fields cur s).
Proof.
  induction s as [|c s IH]; intros inrun cur Hrun; simpl.
  - destruct cur as [|a cur]; [by rewrite filter_cons_False|done].
  - destruct (isSpace c).
    + destruct inrun.
      * rewrite (Hrun eq_refl). by apply IH.
      * destruct cur as [|a cur].
        -- rewrite filter_cons_False by done. by apply IH.
        -- rewrite !filter_cons. by rewrite IH.
    + by apply IH.
Qed.
End SplitSpaces.

Lemma isStopWord_spec word : isStopWord word ↔ word ∈ stopWords.
Proof. unfold isStopWord. apply bool_decide_spec. Qed.

(** C9: [tokenize] is the reference pipeline (lower-case, blank out what is
    neither a word character nor white space, split on runs of white space,
    drop the tokens of length at most 2, drop the stop words), order and
    repetitions kept; the empty text has no token and "The Cat sat." gives
    "cat" and "sat", without "the". *)
Theorem tokenize_refines_spec :
  (∀ text, tokenize text = tokenize_spec text)
  ∧ tokenize (js "") = []
  ∧ tokenize (js "The Cat sat.") = [js "cat"; js "sat"]
  ∧ tokenize (js "dog, cat; DOG") = [js "dog"; js "cat"; js "dog"].
Proof.
  split; [|by vm_compute].
  intros text. unfold tokenize, tokenize_spec, splitWhitespace, replacePunct, toLowerCase.
  rewrite (filter_splitSpaces (λ token, 2 < length token)) by (simpl; lia || done).
  rewrite (list_filter_iff (λ token, 2 < length token) (λ t, ¬ length t ≤ 2)) by (intros; lia).
  apply list_filter_iff. intros t. by rewrite isStopWord_spec.
Qed.

(** ** Chunker *)

Section ChunkerFacts.
Variables (size overlap : Z) (clock : nat → jsstring).
Variables (docId fileName : jsstring).

Local Abbreviation step := (chunkStep size overlap clock docId fileName).
Local Abbreviation chunk := (chunkDocument size overlap clock docId fileName).

Lemma closes_empty line : closes size [] line = false.
Proof. unfold closes. simpl. by rewrite andb_false_r. Qed.

Lemma closes_fits cur line :
  (Z.of_nat (length cur) + Z.of_nat (length line) ≤ size)%Z →
  closes size cur line = false.
Proof.
  intros Hfit. unfold closes.
  destruct (Z.gtb_spec (Z.of_nat (length cur) + Z.of_nat (length line)) size); [lia|done].
Qed.

Lemma step_append chunks cur line idx :
  closes size cur line = false →
  step (chunks, cur, idx) line
  = (chunks, cur ++ (if (0 <? length cur)%nat then [LF] else []) ++ line, idx).
Proof. intros Hc. unfold chunkStep. by rewrite Hc. Qed.

(** A buffer that already holds text takes up the rest of a text that
    fits: every line is appended after a line feed, none closes a chunk. *)
Lemma loop_fits_nonempty s : ∀ p cur chunks idx,
  cur ≠ [] →
  (Z.of_nat (length cur) + 1 + Z.of_nat (length p) + Z.of_nat (length s) ≤ size)%Z →
  fold_left step (splitOn LF p s) (chunks, cur, idx)
  = (chunks, cur ++ LF :: p ++ s, idx).
Proof.
  induction s as [|c s IH]; intros p cur chunks idx Hne Hfit; cbn [splitOn fold_left length] in *.
  - rewrite step_append by (apply closes_fits; lia).
    destruct cur; [done|]. simpl. by rewrite app_nil_r.
  - destruct (Ascii.eqb_spec c LF) as [->|Hc]; cbn [fold_left].
    + rewrite step_append by (apply closes_fits; lia).
      destruct cur as [|a cur]; [done|].
      replace (0 <? length (a :: cur))%nat with true by done.
      rewrite IH.
      * by rewrite <-!app_assoc.
      * done.
      * rewrite !length_app. cbn [length] in *. lia.
    + rewrite IH; [|done|rewrite length_app; simpl; lia].
      by rewrite <-app_assoc.
Qed.

Lemma loop_fits_piece s : ∀ p chunks idx,
  p ≠ [] →
  (Z.of_nat (length p) + Z.of_nat (length s) ≤ size)%Z →
  fold_left step (splitOn LF p s) (chunks, [], idx) = (chunks, p ++ s, idx).
Proof.
  induction s as [|c s IH]; intros p chunks idx Hne Hfit; cbn [splitOn fold_left length] in *.
  - rewrite step_append by apply closes_empty. simpl. by rewrite app_nil_r.
  - destruct (Ascii.eqb_spec c LF) as [->|Hc]; cbn [fold_left].
    + rewrite step_append by apply closes_empty. simpl.
      rewrite loop_fits_nonempty; [done|done|simpl; lia].
    + rewrite IH; [|by destruct p|rewrite length_app; simpl; lia].
      by rewrite <-app_assoc.
Qed.

(** From the empty buffer the loop skips the line feeds in front (an empty
    line leaves an empty buffer empty) and then reads in the rest. *)
Lemma loop_fits s : ∀ chunks idx,
  (Z.of_nat (length s) ≤ size)%Z →
  fold_left step (splitOn LF [] s) (chunks, [], idx) = (chunks, dropLineFeeds s, idx).
Proof.
  induction s as [|c s IH]; intros chunks idx Hfit; cbn [splitOn fold_left length dropLineFeeds] in *.
  - by rewrite step_append by apply closes_empty.
  - destruct (Ascii.eqb_spec c LF) as [->|Hc]; cbn [fold_left].
    + rewrite step_append by apply closes_empty. simpl. apply IH. lia.
    + rewrite loop_fits_piece; [done|done|simpl; lia].
Qed.

Lemma chunk_fits content :
  (Z.of_nat (length content) ≤ size)%Z →
  chunk content =
    match dropLineFeeds content with
    | [] => []
    | buffer => [createChunk buffer docId fileName 0 (clock 0)]
    end.
Proof.
  intros Hfit. unfold chunkDocument, split. rewrite loop_fits by done.
  by destruct (dropLineFeeds content).
Qed.
End ChunkerFacts.

Lemma dropLineFeeds_nil s : (∀ c, c ∈ s → c = LF) → dropLineFeeds s = [].
Proof.
  induction s as [|c s IH]; intros Hall; simpl; [done|].
  rewrite (Hall c) by left. simpl. apply IH. intros c' Hc'. apply Hall. by right.
Qed.

Lemma dropLineFeeds_cons s :
  (∃ c, c ∈ s ∧ c ≠ LF) → ∃ a rest, dropLineFeeds s = a :: rest.
Proof.
  induction s as [|c s IH]; intros (c' & Hin & Hne); simpl.
  - by apply elem_of_nil in Hin.
  - destruct (Ascii.eqb_spec c LF) as [->|Hc]; [|by eauto].
    apply IH. exists c'. split; [|done].
    apply elem_of_cons in Hin as [->|Hin]; done.
Qed.

Lemma dropSpaces_dropLineFeeds s : dropSpaces (dropLineFeeds s) = dropSpaces s.
Proof.
  induction s as [|c s IH]; simpl; [done|].
  destruct (Ascii.eqb_spec c LF) as [->|Hc]; [|done].
  by rewrite IH.
Qed.

Lemma trim_dropLineFeeds s : trim (dropLineFeeds s) = trim s.
Proof. unfold trim. by rewrite dropSpaces_dropLineFeeds. Qed.

(** C5, as the chunker has it: a content shorter than [chunkSize] that holds
    a character other than a line feed gives exactly one chunk, of ordinal
    0, whose stored content is the trimmed input; a content made of line
    feeds only (the empty content is one) gives no chunk. *)
Theorem chunkDocument_short size overlap clock docId fileName content :
  (Z.of_nat (length content) < size)%Z →
  ((∃ c, c ∈ content ∧ c ≠ LF) →
     ∃ chunk, chunkDocument size overlap clock docId fileName content = [chunk]
              ∧ chunk_content chunk = trim content
              ∧ chunk_index chunk = 0)
  ∧ ((∀ c, c ∈ content → c = LF) →
     chunkDocument size overlap clock docId fileName content = []).
Proof.
  intros Hshort. rewrite chunk_fits by lia. split.
  - intros Hsome. destruct (dropLineFeeds_cons content Hsome) as (a & rest & Hbuf).
    rewrite Hbuf. eexists. split; [done|]. simpl. split; [|done].
    by rewrite <-Hbuf, trim_dropLineFeeds.
  - intros Hall. by rewrite dropLineFeeds_nil.
Qed.

Lemma chunkDocument_short_witness :
  ∃ chunk, chunkDocument 600 100 (λ _, []) (js "doc_1") (js "notes.txt") (js "  alpha beta ") = [chunk]
           ∧ chunk_content chunk = trim (js "  alpha beta ")
           ∧ chunk_index chunk = 0.
Proof.
  refine (proj1 (chunkDocument_short 600 100 (λ _, []) (js "doc_1") (js "notes.txt")
                   (js "  alpha beta ") _) _).
  - simpl. lia.
  - exists "a"%char. split; [|done]. vm_compute. do 2 right. left.
Defined.

(** C5 as stated fails: the empty content is shorter than any positive
    [chunkSize] and gives no chunk at all. *)
Lemma chunkDocument_short_counterexample :
  (Z.of_nat (length (js "")) < 600)%Z
  ∧ chunkDocument 600 100 (λ _, []) (js "doc_1") (js "empty.txt") (js "") = []
  ∧ ¬ ∃ chunk,
        chunkDocument 600 100 (λ _, []) (js "doc_1") (js "empty.txt") (js "") = [chunk]
        ∧ chunk_content chunk = trim (js "").
Proof.
  split; [simpl; lia|]. split; [by vm_compute|].
  intros (chunk & Hone & _). vm_compute in Hone. discriminate.
Qed.

Lemma splitOn_cons sep s : ∀ p, ∃ w ws, splitOn sep p s = w :: ws.
Proof.
  induction s as [|c s IH]; intros p; simpl; [by eauto|].
  destruct (Ascii.eqb c sep); [by eauto|]. apply IH.
Qed.

(** Joining the pieces of a split with the separator gives the text back. *)
Lemma join_splitOn sep s : ∀ p, join [sep] (splitOn sep p s) = p ++ s.
Proof.
  induction s as [|c s IH]; intros p; simpl.
  - by rewrite app_nil_r.
  - destruct (Ascii.eqb_spec c sep) as [->|Hc].
    + destruct (splitOn_cons sep s []) as (w & ws & Hw).
      specialize (IH []). rewrite Hw in *.
      change (p ++ [sep] ++ join [sep] (w :: ws) = p ++ sep :: s). by rewrite IH.
    + by rewrite IH, <-app_assoc.
Qed.

Lemma join_split sep s : join [sep] (split sep s) = s.
Proof. apply join_splitOn. Qed.

(** With [chunkOverlap] of 5 or more the carry-over is the last
    [floor(chunkOverlap / 5)] words of the closed buffer. *)
Lemma overlapWords_last overlap cur :
  (5 ≤ overlap)%Z →
  overlapWords overlap cur
  = drop (length (split SP cur) - Z.to_nat (overlap / 5)) (split SP cur).
Proof.
  intros Hov. unfold overlapWords, sliceFrom, sliceIndex.
  assert (0 < overlap / 5)%Z by (apply Z.div_str_pos; lia).
  destruct (Z.ltb_spec (- (overlap / 5)) 0); [|lia].
  f_equal. lia.
Qed.

(** With [chunkOverlap] below 5 the word count is 0, [slice(-0)] is
    [slice(0)], and every word of the closed buffer is carried over. *)
Lemma overlapWords_all overlap cur :
  (0 ≤ overlap < 5)%Z → overlapWords overlap cur = split SP cur.
Proof.
  intros Hov. unfold overlapWords, sliceFrom, sliceIndex.
  rewrite Z.div_small by done. change (- 0 <? 0)%Z with false.
  by replace (Z.to_nat _) with 0 by lia.
Qed.

(** The step that closes a chunk, for [chunkOverlap] of 5 or more: the next
    buffer starts with the last [floor(chunkOverlap / 5)] words of the
    closed one, joined by spaces, then a line feed and the line. *)
Lemma chunkStep_closes_overlap size overlap clock docId fileName chunks cur line idx :
  (5 ≤ overlap)%Z →
  closes size cur line = true →
  chunkStep size overlap clock docId fileName (chunks, cur, idx) line
  = (chunks ++ [createChunk cur docId fileName idx (clock idx)],
     join [SP] (drop (length (split SP cur) - Z.to_nat (overlap / 5)) (split SP cur))
       ++ [LF] ++ line,
     S idx).
Proof.
  intros Hov Hc. unfold chunkStep. rewrite Hc. by rewrite overlapWords_last.
Qed.

(** The step that closes a chunk, for [chunkOverlap] below 5: the next
    buffer starts with the whole closed buffer. *)
Lemma chunkStep_closes_small_overlap size overlap clock docId fileName chunks cur line idx :
  (0 ≤ overlap < 5)%Z →
  closes size cur line = true →
  chunkStep size overlap clock docId fileName (chunks, cur, idx) line
  = (chunks ++ [createChunk cur docId fileName idx (clock idx)],
     cur ++ [LF] ++ line, S idx).
Proof.
  intros Hov Hc. unfold chunkStep. rewrite Hc.
  by rewrite overlapWords_all, join_split.
Qed.

(** C6 on the text "aaa bbb" LF "ccc" with [chunkSize] 5 and [chunkOverlap]
    0: the second line closes the chunk "aaa bbb", the word count
    [floor(0 / 5)] is 0, and yet both words of the closed buffer are carried
    over, so that the last chunk is "aaa bbb" LF "ccc" and not "ccc". *)
Theorem chunkDocument_zero_overlap clock docId fileName :
  let text := js "aaa bbb" ++ [LF] ++ js "ccc" in
  closes 5 (js "aaa bbb") (js "ccc") = true
  ∧ (0 / 5 = 0)%Z
  ∧ overlapWords 0 (js "aaa bbb") = [js "aaa"; js "bbb"]
  ∧ chunk_content <$> chunkDocument 5 0 clock docId fileName text
    = [js "aaa bbb"; js "aaa bbb" ++ [LF] ++ js "ccc"]
  ∧ chunk_content <$> chunkDocument 5 0 clock docId fileName text
    ≠ [js "aaa bbb"; trim ([] ++ [LF] ++ js "ccc")].
Proof. by vm_compute. Qed.

(** The same text with [chunkOverlap] 5: one word is carried over. *)
Example chunkDocument_overlap_one_word clock docId fileName :
  chunk_content <$>
    chunkDocument 5 5 clock docId fileName (js "aaa bbb" ++ [LF] ++ js "ccc")
  = [js "aaa bbb"; js "bbb" ++ [LF] ++ js "ccc"].
Proof. by vm_compute. Qed.

(** ** Relevance scorer *)

Lemma fold_accumulate corpus chunkTokens queryTokens : ∀ total,
  fold_left (accumulate corpus chunkTokens) queryTokens total
  = (total + sumOver (contribution corpus chunkTokens) queryTokens)%R.
Proof.
  induction queryTokens as [|t q IH]; intros total; simpl.
  - lra.
  - rewrite IH. unfold accumulate, contribution. case_decide; lra.
Qed.

Lemma runningTotal_sum corpus queryTokens chunkTokens :
  runningTotal corpus queryTokens chunkTokens
  = sumOver (contribution corpus chunkTokens) queryTokens.
Proof. unfold runningTotal. rewrite fold_accumulate. lra. Qed.

Lemma occurrences_cons token t tokens :
  occurrences token (t :: tokens)
  = (if decide (t = token) then 1 else 0) + occurrences token tokens.
Proof. unfold occurrences. rewrite filter_cons. by case_decide. Qed.

Lemma occurrences_not_elem_of token tokens :
  token ∉ tokens → occurrences token tokens = 0.
Proof.
  induction tokens as [|t l IH]; intros Hnot; [done|].
  apply not_elem_of_cons in Hnot as [Hne Hnot].
  rewrite occurrences_cons, IH by done. by rewrite decide_False.
Qed.

Lemma occurrences_NoDup token tokens :
  NoDup tokens → token ∈ tokens → occurrences token tokens = 1.
Proof.
  intros Hnd. induction Hnd as [|t l Hnot Hnd IH]; intros Hin.
  { by apply elem_of_nil in Hin. }
  rewrite occurrences_cons. case_decide as Heq.
  - subst. by rewrite occurrences_not_elem_of.
  - rewrite IH; [done|]. apply elem_of_cons in Hin as [->|Hin]; done.
Qed.

Lemma occurrences_elem_of token tokens :
  0 < occurrences token tokens → token ∈ tokens.
Proof.
  intros Hpos. destruct (decide (token ∈ tokens)) as [|Hnot]; [done|].
  rewrite occurrences_not_elem_of in Hpos by done. lia.
Qed.

Lemma occurrences_replicate token k : occurrences token (replicate k token) = k.
Proof.
  induction k as [|k IH]; [done|]. simpl. rewrite occurrences_cons, IH.
  by case_decide.
Qed.

Lemma sumOver_cons {A} (f : A → R) x l :
  sumOver f (x :: l) = (f x + sumOver f l)%R.
Proof. done. Qed.

Lemma sumOver_replicate {A} (f : A → R) x k :
  sumOver f (replicate k x) = (INR k * f x)%R.
Proof.
  induction k as [|k IH]; [simpl; lra|].
  cbn [replicate]. rewrite sumOver_cons, IH, S_INR. lra.
Qed.

Section Sums.
Variable f : jsstring → R.

(** One more [x] in the list raises the weight of [x] by one. *)
Lemma sumOver_weight_cons x l (L : list jsstring) :
  sumOver (λ t, INR (occurrences t (x :: l)) * f t)%R L
  = (sumOver (λ t, INR (occurrences t l) * f t) L + INR (occurrences x L) * f x)%R.
Proof.
  induction L as [|t L IH].
  - simpl. lra.
  - rewrite !sumOver_cons, IH. rewrite (occurrences_cons t x l), (occurrences_cons x t L).
    rewrite !plus_INR. repeat case_decide; subst; try done; simpl; lra.
Qed.

(** A sum over a sequence is the sum over its distinct members, each
    weighted by the number of times it occurs. *)
Lemma sumOver_remove_dups l :
  sumOver f l = sumOver (λ t, INR (occurrences t l) * f t)%R (remove_dups l).
Proof.
  induction l as [|x l IH]; [done|].
  rewrite sumOver_cons, IH. cbn [remove_dups].
  destruct (decide_rel elem_of x l) as [Hin|Hnot].
  - rewrite sumOver_weight_cons.
    rewrite (occurrences_NoDup x (remove_dups l));
      [simpl; lra|apply NoDup_remove_dups|by apply elem_of_remove_dups].
  - rewrite sumOver_cons, sumOver_weight_cons, occurrences_cons.
    rewrite (occurrences_not_elem_of x l) by done.
    rewrite (occurrences_not_elem_of x (remove_dups l)) by (by rewrite elem_of_remove_dups).
    case_decide; [|done]. simpl. lra.
Qed.
End Sums.

(** In exact arithmetic the additions of the loop are a sum with weights:
    the running total is the sum, over the distinct query tokens, of the
    number of times the token occurs in the query times its [tf * idf] (if
    the chunk holds it), and a query of [k] copies of one token totals [k]
    times that. *)
Lemma runningTotal_exact corpus queryTokens chunkTokens :
  runningTotal corpus queryTokens chunkTokens
  = sumOver (λ token, INR (occurrences token queryTokens)
                      * contribution corpus chunkTokens token)%R
      (remove_dups queryTokens)
  ∧ (∀ token k,
       runningTotal corpus (replicate k token) chunkTokens
       = (INR k * contribution corpus chunkTokens token)%R).
Proof.
  split.
  - rewrite runningTotal_sum. apply sumOver_remove_dups.
  - intros token k. by rewrite runningTotal_sum, sumOver_replicate.
Qed.

(** ** The loop of the scorer in double precision *)

Section Accumulation.
Import PrimFloat.
Context (log : float → float) (corpus : list Chunk) (chunkTokens : list jsstring).

Let addend (t : jsstring) : float :=
  (Float64.tf t chunkTokens * Float64.idf log corpus t)%float.

Lemma fold_accumulate64 queryTokens : ∀ total,
  fold_left (Float64.accumulate log corpus chunkTokens) queryTokens total
  = fold_left (λ score t, (score + addend t)%float)
      (filter (λ t, t ∈ chunkTokens) queryTokens) total.
Proof.
  induction queryTokens as [|t q IH]; intros total; [done|].
  cbn [fold_left]. rewrite IH, filter_cons. unfold Float64.accumulate.
  by case_decide.
Qed.

Lemma fold_replicate {A B} (f : A → B → A) (x : B) k : ∀ a,
  fold_left f (replicate k x) a = Nat.iter k (λ a, f a x) a.
Proof.
  induction k as [|k IH]; intros a; [done|].
  cbn [replicate fold_left]. rewrite IH. clear IH.
  induction k as [|k IH]; [done|]. simpl. by rewrite IH.
Qed.

Lemma occurrences_filter_elem_of token queryTokens :
  token ∈ chunkTokens →
  occurrences token (filter (λ t, t ∈ chunkTokens) queryTokens)
  = occurrences token queryTokens.
Proof.
  intros Hin. induction queryTokens as [|t q IH]; [done|].
  rewrite filter_cons. case_decide as Ht.
  - by rewrite !occurrences_cons, IH.
  - rewrite occurrences_cons, IH. case_decide; [by subst|done].
Qed.
End Accumulation.

Section Amplification.
Import PrimFloat.

(** The additions are rounded one by one: six additions of the double
    nearest to [ln(3/2)] give 2.4327906486489868, and six times that double
    is 2.4327906486489863. *)
Example additions_are_rounded :
  let x := 0x1.9f323ecbf984cp-2%float in
  Nat.iter 6 (λ score, (score + x)%float) 0%float = 0x1.3765af18fb23ap+1%float
  ∧ (6 * x)%float = 0x1.3765af18fb239p+1%float.
Proof. split; by vm_compute. Qed.

(** C8: the loop runs over the raw query sequence. In double precision,
    for a token that the chunk holds: the running total is what the
    additions of [tf * idf], one for each query token that the chunk holds
    and in the order of the query, make of 0; the token stands as many
    times among these as in the query ([k] occurrences, [k] additions of
    its [tf * idf]); a further occurrence adds it once more, whatever came
    before; a query of [k] copies of the token totals [k] additions; and
    the score is the running total over the square root of the raw query
    length. *)
Theorem duplicate_query_tokens_amplify log corpus queryTokens chunkTokens token :
  token ∈ chunkTokens →
  let addend t := (Float64.tf t chunkTokens * Float64.idf log corpus t)%float in
  let added := filter (λ t, t ∈ chunkTokens) queryTokens in
  Float64.runningTotal log corpus queryTokens chunkTokens
  = fold_left (λ score t, (score + addend t)%float) added 0%float
  ∧ occurrences token added = occurrences token queryTokens
  ∧ (∀ earlier,
       Float64.runningTotal log corpus (earlier ++ [token]) chunkTokens
       = (Float64.runningTotal log corpus earlier chunkTokens + addend token)%float)
  ∧ (∀ k,
       Float64.runningTotal log corpus (replicate k token) chunkTokens
       = Nat.iter k (λ score, (score + addend token)%float) 0%float)
  ∧ (queryTokens ≠ [] →
     Float64.calculateRelevanceScore log corpus queryTokens chunkTokens
     = (Float64.runningTotal log corpus queryTokens chunkTokens
        / sqrt (Float64.ofNat (length queryTokens)))%float).
Proof.
  intros Hin addend added. split; [apply fold_accumulate64|].
  split; [by apply occurrences_filter_elem_of|]. split; [|split].
  - intros earlier. unfold Float64.runningTotal. rewrite fold_left_app. simpl.
    unfold Float64.accumulate at 1. by rewrite decide_True.
  - intros k. unfold Float64.runningTotal. rewrite fold_replicate.
    induction k as [|k IH]; [done|]. simpl. rewrite IH.
    unfold Float64.accumulate. by rewrite decide_True.
  - intros Hquery. unfold Float64.calculateRelevanceScore.
    case_decide as Hempty; [|done].
    destruct Hempty as [Hq|Hc].
    + by destruct queryTokens.
    + destruct chunkTokens; [by apply elem_of_nil in Hin|done].
Qed.

Lemma duplicate_query_tokens_amplify_witness :
  let chunkTokens := [js "alpha"; js "alpha"; js "delta"] in
  let corpus := chunks rankedEngine in
  let total := Float64.runningTotal logTable corpus in
  let score := Float64.calculateRelevanceScore logTable corpus in
  js "alpha" ∈ chunkTokens
  ∧ total [js "alpha"; js "delta"] chunkTokens = 0x1.d117de31ec906p-2%float
  ∧ total [js "alpha"; js "delta"; js "alpha"] chunkTokens
    = (0x1.d117de31ec906p-2 + 0x1.30aa52fbc66c1p-3)%float
  ∧ score [js "alpha"; js "delta"] chunkTokens = 0x1.48dede50daa8ap-2%float
  ∧ score [js "alpha"; js "delta"; js "alpha"] chunkTokens = 0x1.6478940727242p-2%float.
Proof.
  intros chunkTokens corpus total score.
  assert (Hin : js "alpha" ∈ chunkTokens) by (vm_compute; left).
  destruct (duplicate_query_tokens_amplify logTable corpus
              [js "alpha"; js "delta"; js "alpha"] chunkTokens (js "alpha") Hin)
    as (_ & _ & Hmore & _ & Hscore).
  split; [exact Hin|]. split; [by vm_compute|]. split.
  - etrans; [exact (Hmore [js "alpha"; js "delta"])|by vm_compute].
  - split; [by vm_compute|]. subst score. rewrite Hscore by done. by vm_compute.
Defined.
End Amplification.

(** ** Sign of a score *)

Lemma ln_half_negative : (ln (1 / 2) < 0)%R.
Proof. rewrite <-ln_1. apply ln_increasing; lra. Qed.

(** The score of a one-token query against a chunk that holds the token. *)
Lemma score_single corpus token chunkTokens :
  token ∈ chunkTokens →
  calculateRelevanceScore corpus [token] chunkTokens
  = (tf token chunkTokens * idf corpus token)%R.
Proof.
  intros Hin. unfold calculateRelevanceScore.
  case_decide as Hempty.
  { destruct Hempty as [Hq|Hc]; [done|]. destruct chunkTokens; [|done].
    by apply elem_of_nil in Hin. }
  unfold runningTotal, accumulate. simpl. rewrite decide_True by done.
  rewrite sqrt_1. lra.
Qed.

Lemma docsWithTerm_singleton chunk token :
  token ∈ chunk_tokens chunk → docsWithTerm [chunk] token = 1.
Proof. intros Hin. unfold docsWithTerm. by rewrite filter_cons_True. Qed.

(** C7: in a corpus of one chunk that holds the query token exactly once,
    [idf] is [ln(1/2)], and the score of the one-token query is
    [(1 / chunkTokens.length) * ln(1/2) / sqrt(1)], a negative number that
    is returned as it is. *)
Theorem score_sign_preserved chunk token :
  occurrences token (chunk_tokens chunk) = 1 →
  idf [chunk] token = ln (1 / 2)
  ∧ calculateRelevanceScore [chunk] [token] (chunk_tokens chunk)
    = (1 / INR (length (chunk_tokens chunk)) * ln (1 / 2) / sqrt 1)%R
  ∧ (calculateRelevanceScore [chunk] [token] (chunk_tokens chunk) < 0)%R.
Proof.
  intros Honce.
  assert (Hin : token ∈ chunk_tokens chunk) by (apply occurrences_elem_of; lia).
  assert (Hidf : idf [chunk] token = ln (1 / 2)).
  { unfold idf. rewrite docsWithTerm_singleton by done. simpl. done. }
  assert (Hlen : (0 < INR (length (chunk_tokens chunk)))%R).
  { apply lt_0_INR. destruct (chunk_tokens chunk); [by apply elem_of_nil in Hin|simpl; lia]. }
  rewrite score_single by done. unfold tf. rewrite Honce, Hidf, sqrt_1. simpl INR.
  split; [done|]. split; [lra|].
  assert (0 < 1 / INR (length (chunk_tokens chunk)))%R
    by (apply Rdiv_lt_0_compat; lra).
  pose proof ln_half_negative. nra.
Qed.

Lemma score_sign_preserved_witness :
  let chunk := createChunk (js "alpha beta gamma") (js "doc_1") (js "doc1") 0 [] in
  (calculateRelevanceScore [chunk] [js "alpha"] (chunk_tokens chunk) < 0)%R.
Proof.
  intros chunk.
  refine (proj2 (proj2 (score_sign_preserved chunk (js "alpha") _))).
  by vm_compute.
Defined.

(** ** Sorting by a key, highest first *)

Section SortByKey.
Context {A : Type} (key : A → R).

Let compare (a b : A) : R := (key b - key a)%R.

(** [a] may stand before [b]. *)
Let above (a b : A) : Prop := (key b <= key a)%R.

Lemma insertBy_Permutation x l : insertBy compare x l ≡ₚ x :: l.
Proof.
  induction l as [|y l IH]; simpl; [done|].
  case_decide; [done|]. rewrite IH. apply Permutation_swap.
Qed.

Lemma sortBy_Permutation l : sortBy compare l ≡ₚ l.
Proof.
  induction l as [|x l IH]; simpl; [done|].
  by rewrite insertBy_Permutation, IH.
Qed.

Lemma insertBy_sorted x l :
  StronglySorted above l → StronglySorted above (insertBy compare x l).
Proof.
  induction 1 as [|y l Hsorted IH Hall]; simpl.
  - repeat constructor.
  - case_decide as Hcmp; unfold compare in Hcmp.
    + constructor; [by constructor|].
      constructor; [unfold above; lra|].
      eapply Forall_impl; [exact Hall|]. unfold above. intros z Hz. simpl in Hz. lra.
    + constructor; [done|].
      rewrite insertBy_Permutation. constructor; [unfold above; lra|done].
Qed.

Lemma sortBy_sorted l : StronglySorted above (sortBy compare l).
Proof.
  induction l as [|x l IH]; simpl; [constructor|]. by apply insertBy_sorted.
Qed.

(** In a list sorted highest first the elements of positive key form a
    prefix, so that cutting the list and keeping the positive keys can be
    done in either order. *)
Lemma filter_positive_nil l x :
  (key x <= 0)%R → Forall (above x) l → filter (λ a, (0 < key a)%R) l = [].
Proof.
  intros Hx Hall. induction Hall as [|y l Hy Hall IH]; [done|].
  rewrite filter_cons_False; [done|]. unfold above in Hy. lra.
Qed.

Lemma filter_take_sorted l : ∀ k,
  StronglySorted above l →
  filter (λ a, (0 < key a)%R) (take k l) = take k (filter (λ a, (0 < key a)%R) l).
Proof.
  induction l as [|x l IH]; intros k Hsorted.
  - by rewrite take_nil, filter_nil, take_nil.
  - apply StronglySorted_inv in Hsorted as [Hsorted Hall].
    destruct k as [|k]; [done|]. simpl take at 1.
    destruct (decide (0 < key x)%R) as [Hpos|Hneg].
    + rewrite !filter_cons_True by done. simpl. by rewrite IH.
    + rewrite !filter_cons_False by done.
      rewrite (filter_positive_nil l x) by (done || lra).
      rewrite take_nil. apply (filter_positive_nil _ x); [lra|].
      eapply Forall_take in Hall. exact Hall.
Qed.
End SortByKey.

Lemma sliceTo_nonneg {A} (l : list A) (k : Z) :
  (0 ≤ k)%Z → sliceTo k l = take (Z.to_nat k) l.
Proof.
  intros Hk. unfold sliceTo, sliceIndex.
  destruct (Z.ltb_spec k 0); [lia|].
  destruct (Z.min_spec k (Z.of_nat (length l))) as [[_ ->]|[Hle ->]]; [done|].
  rewrite Nat2Z.id, !take_ge; [done|lia|lia].
Qed.

(** A negative end is counted from the end of the array. *)
Example sliceTo_negative : sliceTo (-1) [10; 20; 30] = [10; 20].
Proof. done. Qed.

(** ** Retrieval *)

(** Retrieval with a non-negative [topK]: cutting the ranked list to [topK]
    and then dropping the scores that are not positive gives the first
    [topK] of the positive scores. *)
Lemma retrieve_take_filter e query topK :
  (0 ≤ topK)%Z →
  retrieveRelevantChunks e query topK
  = toResult <$> take (Z.to_nat topK)
                   (filter relevant (sortBy byScoreDesc (scoreChunks e query))).
Proof.
  intros Hk. unfold retrieveRelevantChunks. case_decide as Hempty.
  - unfold scoreChunks. apply length_zero_iff_nil in Hempty. rewrite Hempty. cbn. by rewrite take_nil.
  - rewrite sliceTo_nonneg by done. f_equal.
    apply (filter_take_sorted snd). apply (sortBy_sorted snd).
Qed.

Lemma ranked_Permutation (l : list ScoredChunk) : sortBy byScoreDesc l ≡ₚ l.
Proof. apply (sortBy_Permutation snd). Qed.

(** When [topK] is at least the number of stored chunks, every stored chunk
    of positive score is returned. *)
Lemma retrieve_includes e query topK chunk :
  (Z.of_nat (length (chunks e)) ≤ topK)%Z →
  chunk ∈ chunks e →
  (0 < calculateRelevanceScore (chunks e) (tokenize query) (chunk_tokens chunk))%R →
  toResult (chunk, calculateRelevanceScore (chunks e) (tokenize query) (chunk_tokens chunk))
    ∈ retrieveRelevantChunks e query topK.
Proof.
  intros Hk Hin Hpos. rewrite retrieve_take_filter by lia.
  apply list_elem_of_fmap_2. rewrite take_ge.
  - apply list_elem_of_filter. split; [done|].
    rewrite ranked_Permutation. unfold scoreChunks.
    apply list_elem_of_fmap. by exists chunk.
  - etrans; [apply length_filter|].
    rewrite ranked_Permutation. unfold scoreChunks. rewrite length_fmap. lia.
Qed.

(** ** Double precision: the sign of a difference and the order of the numbers *)

Section Binary64.
Import SpecFloat FloatAxioms PrimFloat.
Abbreviation prec := FloatOps.prec.
Abbreviation emax := FloatOps.emax.

Lemma digits2_pos_size m : digits2_pos m = Pos.size m.
Proof. induction m as [m IH|m IH|]; simpl; by rewrite ?IH. Qed.

Lemma digits2_bounds m :
  (2 ^ (Z.pos (digits2_pos m) - 1) ≤ Z.pos m < 2 ^ Z.pos (digits2_pos m))%Z.
Proof.
  rewrite digits2_pos_size.
  pose proof (Pos.size_gt m) as Hgt. pose proof (Pos.size_le m) as Hle.
  assert (Hpow : (2 ^ Z.pos (Pos.size m) = Z.pos (2 ^ Pos.size m))%Z).
  { by rewrite Pos2Z.inj_pow. }
  rewrite Hpow. split; [|lia].
  assert (2 * 2 ^ (Z.pos (Pos.size m) - 1) = 2 ^ Z.pos (Pos.size m))%Z as Hhalf.
  { rewrite <-Z.pow_succ_r by lia. f_equal. lia. }
  rewrite Hpow in Hhalf. lia.
Qed.

Lemma iter_xO m d : Z.pos (Pos.iter xO m d) = (Z.pos m * 2 ^ Z.pos d)%Z.
Proof.
  induction d as [|d IH] using Pos.peano_ind.
  - simpl. lia.
  - rewrite Pos.iter_succ, Pos2Z.inj_xO, IH, Pos2Z.inj_succ, Z.pow_succ_r by lia. lia.
Qed.

Lemma shl_align_value m e e' :
  (e' ≤ e)%Z → Z.pos (shl_align m e e').1 = (Z.pos m * 2 ^ (e - e'))%Z.
Proof.
  intros Hle. unfold shl_align.
  destruct (e' - e)%Z as [|d|d] eqn:Hd; simpl; try lia.
  - replace (e - e')%Z with 0%Z by lia. lia.
  - rewrite iter_xO. f_equal. f_equal. lia.
Qed.

Lemma bounded_inv m e :
  bounded prec emax m e = true →
  (-1074 ≤ e)%Z ∧ (Z.pos m < 2 ^ 53)%Z ∧ ((-1074 < e)%Z → (2 ^ 52 ≤ Z.pos m)%Z).
Proof.
  unfold bounded, canonical_mantissa, fexp, emin.
  change prec with 53%Z. change emax with 1024%Z.
  intros [Hcan _]%andb_prop. apply Z.eqb_eq in Hcan.
  pose proof (digits2_bounds m) as [Hlow Hhigh].
  set (d := Z.pos (digits2_pos m)) in *.
  split; [lia|]. split.
  - assert (d ≤ 53)%Z by lia.
    eapply Z.lt_le_trans; [exact Hhigh|]. by apply Z.pow_le_mono_r.
  - intros Hnormal. assert (d = 53)%Z as Hd by lia. by rewrite Hd in Hlow.
Qed.

Lemma pow2_ge_2 n : (0 < n)%Z → (2 ≤ 2 ^ n)%Z.
Proof. intros Hn. change 2%Z with (2 ^ 1)%Z at 1. apply Z.pow_le_mono_r; lia. Qed.

(** Two canonical finite numbers compare as their mantissas brought to the
    lower of the two exponents. *)
Lemma SFcompare_aligned s1 m1 e1 s2 m2 e2 :
  bounded prec emax m1 e1 = true → bounded prec emax m2 e2 = true →
  let ez := Z.min e1 e2 in
  SFcompare (S754_finite s1 m1 e1) (S754_finite s2 m2 e2)
  = Some (cond_Zopp s1 (Z.pos (shl_align m1 e1 ez).1)
          ?= cond_Zopp s2 (Z.pos (shl_align m2 e2 ez).1))%Z.
Proof.
  intros (Hmin1 & Hhigh1 & Hlow1)%bounded_inv (Hmin2 & Hhigh2 & Hlow2)%bounded_inv ez.
  rewrite !shl_align_value by lia. subst ez.
  assert (Hcmp : (Z.pos m1 * 2 ^ (e1 - Z.min e1 e2) ?= Z.pos m2 * 2 ^ (e2 - Z.min e1 e2))%Z
                 = match (e1 ?= e2)%Z with
                   | Lt => Lt | Gt => Gt | Eq => Pos.compare_cont Eq m1 m2
                   end).
  { destruct (Z.compare_spec e1 e2) as [->|Hlt|Hgt].
    - rewrite Z.min_id, Z.sub_diag. simpl. by rewrite !Pos.mul_1_r.
    - rewrite Z.min_l, Z.sub_diag by lia. apply Z.compare_lt_iff.
      pose proof (pow2_ge_2 (e2 - e1)). nia.
    - rewrite Z.min_r, Z.sub_diag by lia. apply Z.compare_gt_iff.
      pose proof (pow2_ge_2 (e1 - e2)). nia. }
  simpl SFcompare. f_equal.
  set (a := (Z.pos m1 * 2 ^ (e1 - Z.min e1 e2))%Z) in *.
  set (b := (Z.pos m2 * 2 ^ (e2 - Z.min e1 e2))%Z) in *.
  assert (0 < a)%Z by (subst a; apply Z.mul_pos_pos; [lia|apply Z.pow_pos_nonneg; lia]).
  assert (0 < b)%Z by (subst b; apply Z.mul_pos_pos; [lia|apply Z.pow_pos_nonneg; lia]).
  destruct s1, s2; simpl cond_Zopp.
  - rewrite Z.compare_opp, (Z.compare_antisym a b), Hcmp. by destruct (e1 ?= e2)%Z.
  - symmetry. apply Z.compare_lt_iff. lia.
  - symmetry. apply Z.compare_gt_iff. lia.
  - by rewrite Hcmp.
Qed.

Lemma shr_1_m mrs : (0 ≤ shr_m mrs)%Z → shr_m (shr_1 mrs) = (shr_m mrs / 2)%Z.
Proof.
  destruct mrs as [m r s]. cbn [shr_m]. intros Hm.
  destruct m as [|[p|p|]|p]; cbn [shr_1 shr_m]; try lia;
    first [apply Z.div_unique with 0%Z; lia | apply Z.div_unique with 1%Z; lia].
Qed.

Lemma iter_shr_1_m p : ∀ mrs,
  (0 ≤ shr_m mrs)%Z →
  shr_m (iter_pos shr_1 p mrs) = (shr_m mrs / 2 ^ Z.pos p)%Z.
Proof.
  assert (Hnonneg : ∀ q mrs, (0 ≤ shr_m mrs)%Z → (0 ≤ shr_m mrs / 2 ^ Z.pos q)%Z).
  { intros q mrs Hm. apply Z.div_pos; [done|]. apply Z.pow_pos_nonneg; lia. }
  induction p as [p IH|p IH|]; intros mrs Hm; simpl.
  - assert (Hm1 : (0 ≤ shr_m (shr_1 mrs))%Z).
    { rewrite shr_1_m by done. apply Z.div_pos; lia. }
    rewrite IH; rewrite IH; try done.
    + rewrite shr_1_m by done.
      rewrite !Z.div_div
        by first [lia | apply Z.pow_nonzero; lia | apply Z.pow_pos_nonneg; lia].
      f_equal. rewrite Pos2Z.inj_xI, <-Z.pow_add_r, <-Z.pow_succ_r by lia.
      f_equal. lia.
    + by apply Hnonneg.
  - rewrite IH; rewrite IH; try done.
    + rewrite Z.div_div
        by first [apply Z.pow_nonzero; lia | apply Z.pow_pos_nonneg; lia].
      f_equal. rewrite Pos2Z.inj_xO, <-Z.pow_add_r by lia. f_equal. lia.
    + by apply Hnonneg.
  - rewrite shr_1_m by done. done.
Qed.

Lemma shr_record_of_loc_m m l : shr_m (shr_record_of_loc m l) = m.
Proof. by destruct l as [|[]]. Qed.

(** Shifting a positive mantissa to its canonical exponent leaves it
    positive: at most all digits but [prec] are shifted out. *)
Lemma shr_fexp_positive m e l :
  (0 < m)%Z → (-1074 ≤ e)%Z →
  (0 < shr_m (shr_fexp prec emax m e l).1)%Z ∧ (-1074 ≤ (shr_fexp prec emax m e l).2)%Z.
Proof.
  intros Hm He. unfold shr_fexp, shr, fexp, emin.
  change prec with 53%Z. change emax with 1024%Z.
  destruct m as [|q|q]; try lia. cbn [Zdigits2].
  pose proof (digits2_bounds q) as [Hlow _].
  set (d := Z.pos (digits2_pos q)) in *.
  destruct (Z.max (d + e - 53) (3 - 1024 - 53) - e)%Z as [|n|n] eqn:Hn; simpl.
  - by rewrite shr_record_of_loc_m.
  - split; [|lia].
    rewrite iter_shr_1_m by (rewrite shr_record_of_loc_m; lia).
    rewrite shr_record_of_loc_m.
    assert (Z.pos n = d - 53)%Z as Hshift by lia.
    apply Z.div_str_pos. split; [apply Z.pow_pos_nonneg; lia|].
    etrans; [|exact Hlow]. apply Z.pow_le_mono_r; lia.
  - by rewrite shr_record_of_loc_m.
Qed.

Lemma round_nearest_even_positive m l : (0 < m)%Z → (0 < round_nearest_even m l)%Z.
Proof. intros Hm. destruct l as [|[]]; simpl; try lia. destruct (Z.even m); lia. Qed.

Lemma binary_round_aux_sign s m e l :
  (0 < m)%Z → (-1074 ≤ e)%Z →
  (∃ m' e', binary_round_aux prec emax s m e l = S754_finite s m' e')
  ∨ binary_round_aux prec emax s m e l = S754_infinity s.
Proof.
  intros Hm He. unfold binary_round_aux.
  destruct (shr_fexp_positive m e l Hm He) as [Hm1 He1].
  destruct (shr_fexp prec emax m e l) as [mrs1 e1]. simpl in Hm1, He1.
  pose proof (round_nearest_even_positive _ (loc_of_shr_record mrs1) Hm1) as Hm2.
  destruct (shr_fexp_positive _ e1 loc_Exact Hm2 He1) as [Hm3 _].
  destruct (shr_fexp prec emax _ e1 loc_Exact) as [mrs2 e2]. simpl in Hm3.
  destruct (shr_m mrs2) as [|m3|m3]; try lia.
  destruct (e2 <=? emax - prec)%Z; [left; eauto|by right].
Qed.

Lemma binary_round_sign s m e :
  (-1074 ≤ e)%Z →
  (∃ m' e', binary_round prec emax s m e = S754_finite s m' e')
  ∨ binary_round prec emax s m e = S754_infinity s.
Proof.
  intros He. unfold binary_round.
  destruct (shl_align m e _) as [mz ez] eqn:Halign.
  apply binary_round_aux_sign; [lia|].
  unfold shl_align in Halign.
  destruct (fexp prec emax (Z.pos (digits2_pos m) + e) - e)%Z eqn:Hd;
    injection Halign as <- <-; try done.
  unfold fexp, emin. change prec with 53%Z. change emax with 1024%Z. lia.
Qed.

(** The sign of a difference: [b - a] is above zero exactly when [a] is
    below [b]. The rounded difference of two distinct numbers is never
    zero. *)
Lemma SFsub_positive a b :
  SpecFloat.valid_binary prec emax a = true → SpecFloat.valid_binary prec emax b = true →
  SFltb (S754_zero false) (SFsub prec emax b a) = SFltb a b.
Proof.
  assert (Hfinite : ∀ sa ma ea sb mb eb,
            bounded prec emax ma ea = true → bounded prec emax mb eb = true →
            SFltb (S754_zero false)
              (SFsub prec emax (S754_finite sb mb eb) (S754_finite sa ma ea))
            = SFltb (S754_finite sa ma ea) (S754_finite sb mb eb));
    [|destruct a as [[]|[]| |sa ma ea], b as [[]|[]| |sb mb eb];
      intros Ha Hb; try done; try (by destruct sa); try (by destruct sb);
      by apply Hfinite].
  intros sa ma ea sb mb eb Ha Hb. unfold SFltb at 2.
  rewrite (SFcompare_aligned sa ma ea sb mb eb Ha Hb).
  cbn [SFsub]. rewrite (Z.min_comm eb ea).
  set (za := cond_Zopp sa _). set (zb := cond_Zopp sb _).
  apply bounded_inv in Ha as [Ha _]. apply bounded_inv in Hb as [Hb _].
  unfold binary_normalize.
  destruct (Z.compare_spec za zb) as [Heq|Hlt|Hgt];
    destruct (zb - za)%Z as [|d|d] eqn:Hd; try lia; try done.
  - destruct (binary_round_sign false d (Z.min ea eb)) as [(m' & e' & ->)| ->];
      [lia|done|done].
  - destruct (binary_round_sign true d (Z.min ea eb)) as [(m' & e' & ->)| ->];
      [lia|done|done].
Qed.

Lemma sub_positive (a b : float) :
  (0 <? b - a)%float = (a <? b)%float.
Proof.
  rewrite !ltb_spec, sub_spec.
  change (FloatOps.Prim2SF 0%float) with (S754_zero false).
  apply SFsub_positive; apply Prim2SF_valid.
Qed.

Lemma SFltb_before a b :
  a ≠ S754_nan → b ≠ S754_nan → SFltb a b = true ↔ before (place a) (place b).
Proof.
  intros Ha Hb. unfold SFltb, before.
  destruct a as [[]|[]| |[] ma ea], b as [[]|[]| |[] mb eb]; try done; simpl;
    try (split; [done|lia]); try (split; [lia|done]).
  all: change (Pos.compare_cont Eq ma mb) with (ma ?= mb)%positive.
  all: destruct (Z.compare_spec ea eb), (Pos.compare_spec ma mb); simpl;
         split; (done || lia).
Qed.

Lemma SFeqb_place a b : SFeqb a b = true → place a = place b ∧ a ≠ S754_nan ∧ b ≠ S754_nan.
Proof.
  unfold SFeqb.
  destruct a as [[]|[]| |[] ma ea], b as [[]|[]| |[] mb eb]; try done; simpl.
  all: change (Pos.compare_cont Eq ma mb) with (ma ?= mb)%positive.
  all: destruct (Z.compare_spec ea eb), (Pos.compare_spec ma mb); simpl; try done.
  all: by subst.
Qed.

Lemma SFleb_SFltb a b :
  a ≠ S754_nan → b ≠ S754_nan → SFleb b a = negb (SFltb a b).
Proof.
  intros Ha Hb. unfold SFleb, SFltb.
  destruct a as [[]|[]| |[] ma ea], b as [[]|[]| |[] mb eb]; try done; simpl.
  all: change (Pos.compare_cont Eq ma mb) with (ma ?= mb)%positive.
  all: change (Pos.compare_cont Eq mb ma) with (mb ?= ma)%positive.
  all: rewrite (Z.compare_antisym ea eb), (Pos.compare_antisym ma mb).
  all: by destruct (ea ?= eb)%Z, (ma ?= mb)%positive.
Qed.

Lemma is_nan_spec x : is_nan x = false ↔ FloatOps.Prim2SF x ≠ S754_nan.
Proof.
  unfold is_nan. rewrite eqb_spec, negb_false_iff. unfold SFeqb.
  destruct (FloatOps.Prim2SF x) as [[]|[]| |[] m e]; simpl; try done.
  all: change (Pos.compare_cont Eq m m) with (m ?= m)%positive.
  all: by rewrite Z.compare_refl, Pos.compare_refl.
Qed.

(** Among numbers [b <= a] says that [a] is not below [b]. *)
Lemma leb_ltb a b :
  is_nan a = false → is_nan b = false → (b <=? a)%float = negb (a <? b)%float.
Proof.
  intros Ha Hb. rewrite leb_spec, ltb_spec. apply SFleb_SFltb; by apply is_nan_spec.
Qed.

Lemma ltb_before a b :
  is_nan a = false → is_nan b = false →
  (a <? b)%float = true ↔ before (place (FloatOps.Prim2SF a)) (place (FloatOps.Prim2SF b)).
Proof.
  rewrite !is_nan_spec, ltb_spec. apply SFltb_before.
Qed.

Lemma is_nan_true x : is_nan x = true → FloatOps.Prim2SF x = S754_nan.
Proof.
  intros Hnan. destruct (FloatOps.Prim2SF x) eqn:Hx; try done.
  all: assert (is_nan x = false) by (apply is_nan_spec; by rewrite Hx).
  all: congruence.
Qed.

Lemma ltb_asym a b : (a <? b)%float = true → (b <? a)%float = false.
Proof.
  intros Hlt. destruct (is_nan a) eqn:Ha; [|destruct (is_nan b) eqn:Hb].
  - apply is_nan_true in Ha. rewrite ltb_spec, Ha in Hlt. done.
  - apply is_nan_true in Hb. rewrite ltb_spec, Hb in Hlt.
    by destruct (FloatOps.Prim2SF a).
  - apply not_true_is_false. rewrite ltb_before by done.
    apply ltb_before in Hlt; [|done..]. unfold before in *. lia.
Qed.

(** Among numbers, "not below" is transitive. *)
Lemma ltb_false_trans a b c :
  is_nan a = false → is_nan b = false → is_nan c = false →
  (a <? b)%float = false → (b <? c)%float = false → (a <? c)%float = false.
Proof.
  intros Ha Hb Hc Hab Hbc. apply not_true_is_false.
  apply not_true_iff_false in Hab, Hbc.
  rewrite ltb_before in Hab, Hbc |- * by done. unfold before in *. lia.
Qed.

(** Two numbers equal to a third are not below one another. *)
Lemma eqb_ltb a b v :
  (a =? v)%float = true → (b =? v)%float = true → (a <? b)%float = false.
Proof.
  rewrite !eqb_spec. intros (Ha & Hna & _)%SFeqb_place (Hb & Hnb & _)%SFeqb_place.
  apply not_true_is_false. rewrite ltb_spec, SFltb_before by done.
  rewrite Ha, Hb. unfold before. lia.
Qed.
End Binary64.

(** ** Sorting doubles, highest first *)

Section FloatSort.
Import PrimFloat.
Context {A : Type} (key : A → float).

Let compare (a b : A) : float := (key b - key a)%float.
Let above (a b : A) : Prop := (key a <? key b)%float = false.

Lemma insertBy64_Permutation x l : Float64.insertBy compare x l ≡ₚ x :: l.
Proof.
  induction l as [|y l IH]; simpl; [done|].
  destruct (0 <? compare x y)%float; [|done]. rewrite IH. apply Permutation_swap.
Qed.

Lemma sortBy64_Permutation l : Float64.sortBy compare l ≡ₚ l.
Proof.
  induction l as [|x l IH]; simpl; [done|].
  by rewrite insertBy64_Permutation, IH.
Qed.

Lemma insertBy64_sorted x l :
  is_nan (key x) = false → Forall (λ a, is_nan (key a) = false) l →
  StronglySorted above l → StronglySorted above (Float64.insertBy compare x l).
Proof.
  intros Hx Hnum Hsorted. induction Hsorted as [|y l Hsorted IH Hall]; simpl.
  - repeat constructor.
  - apply Forall_cons in Hnum as [Hy Hnum].
    unfold compare at 1. rewrite sub_positive.
    destruct (key x <? key y)%float eqn:Hcmp.
    + constructor; [by apply IH|].
      rewrite insertBy64_Permutation. constructor; [by apply ltb_asym|done].
    + constructor; [by constructor|]. constructor; [done|].
      rewrite Forall_forall in Hall, Hnum |- *. intros z Hz.
      apply ltb_false_trans with (key y); [done|done|by apply Hnum|done|by apply Hall].
Qed.

Lemma sortBy64_sorted l :
  Forall (λ a, is_nan (key a) = false) l → StronglySorted above (Float64.sortBy compare l).
Proof.
  induction 1 as [|x l Hx Hnum IH]; simpl; [constructor|].
  apply insertBy64_sorted; [done| |done].
  by rewrite sortBy64_Permutation.
Qed.

Lemma insertBy64_stable v x l :
  filter (λ a, (key a =? v)%float = true) (Float64.insertBy compare x l)
  = filter (λ a, (key a =? v)%float = true) (x :: l).
Proof.
  induction l as [|y l IH]; simpl; [done|].
  unfold compare at 1. rewrite sub_positive.
  destruct (key x <? key y)%float eqn:Hcmp; [|done].
  rewrite (filter_cons _ y), IH, !(filter_cons _ x), (filter_cons _ y).
  repeat case_decide; try done.
  by rewrite (eqb_ltb (key x) (key y) v) in Hcmp.
Qed.

Lemma sortBy64_stable v l :
  filter (λ a, (key a =? v)%float = true) (Float64.sortBy compare l)
  = filter (λ a, (key a =? v)%float = true) l.
Proof.
  induction l as [|x l IH]; simpl; [done|].
  by rewrite insertBy64_stable, !filter_cons, IH.
Qed.

Lemma filter64_positive_nil l x :
  is_nan (key x) = false → Forall (λ a, is_nan (key a) = false) l →
  (0 <? key x)%float = false → Forall (above x) l →
  filter (λ a, (0 <? key a)%float = true) l = [].
Proof.
  intros Hx Hnum Hneg Hall. induction Hall as [|y l Hy Hall IH]; [done|].
  apply Forall_cons in Hnum as [Hnumy Hnum].
  rewrite filter_cons_False; [by apply IH|].
  rewrite (ltb_false_trans 0 (key x) (key y)); done.
Qed.

Lemma filter64_take_sorted l : ∀ k,
  Forall (λ a, is_nan (key a) = false) l →
  StronglySorted above l →
  filter (λ a, (0 <? key a)%float = true) (take k l)
  = take k (filter (λ a, (0 <? key a)%float = true) l).
Proof.
  induction l as [|x l IH]; intros k Hnum Hsorted.
  - by rewrite take_nil, filter_nil, take_nil.
  - apply StronglySorted_inv in Hsorted as [Hsorted Hall].
    apply Forall_cons in Hnum as [Hx Hnum].
    destruct k as [|k]; [done|]. simpl take at 1.
    destruct (0 <? key x)%float eqn:Hpos.
    + rewrite !filter_cons_True by done. simpl. by rewrite IH.
    + rewrite !filter_cons_False by (by rewrite Hpos).
      rewrite (filter64_positive_nil l x) by done.
      rewrite take_nil. apply (filter64_positive_nil _ x); try done.
      * by apply Forall_take.
      * by apply Forall_take.
Qed.
End FloatSort.

(** ** Retrieval in double precision *)

Section Ranking.
Import PrimFloat.

Lemma ranked64_Permutation (l : list Float64.ScoredChunk) :
  Float64.sortBy Float64.byScoreDesc l ≡ₚ l.
Proof. apply (sortBy64_Permutation snd). Qed.

Lemma StronglySorted_impl_Forall {A} (P : A → Prop) (R1 R2 : A → A → Prop) l :
  (∀ a b, P a → P b → R1 a b → R2 a b) →
  Forall P l → StronglySorted R1 l → StronglySorted R2 l.
Proof.
  intros Himpl Hall Hsorted. induction Hsorted as [|x l Hsorted IH Hx]; [constructor|].
  apply Forall_cons in Hall as [Hpx Hall]. constructor; [by apply IH|].
  rewrite Forall_forall in Hx, Hall |- *. intros y Hy. apply Himpl; auto.
Qed.

Lemma ranked64_sorted (l : list Float64.ScoredChunk) :
  Forall (λ item, is_nan item.2 = false) l →
  StronglySorted (λ a b, (b.2 <=? a.2)%float = true) (Float64.sortBy Float64.byScoreDesc l).
Proof.
  intros Hnum.
  apply (StronglySorted_impl_Forall (λ item, is_nan item.2 = false)
           (λ a b, (a.2 <? b.2)%float = false)).
  - intros a b Ha Hb Hab. by rewrite leb_ltb, Hab.
  - by rewrite ranked64_Permutation.
  - by apply (sortBy64_sorted snd).
Qed.

(** Cutting the ranked list to [topK] and then dropping the scores that
    are not above zero gives the first [topK] of the scores above zero. *)
Lemma retrieve64_take_filter log e query topK :
  (0 ≤ topK)%Z →
  Forall (λ item : Float64.ScoredChunk, is_nan item.2 = false) (Float64.scoreChunks log e query) →
  Float64.retrieveRelevantChunks log e query topK
  = Float64.toResult
      <$> take (Z.to_nat topK)
            (filter (λ item, (0 <? item.2)%float = true)
               (Float64.sortBy Float64.byScoreDesc (Float64.scoreChunks log e query))).
Proof.
  intros Hk Hnum. unfold Float64.retrieveRelevantChunks. case_decide as Hempty.
  - unfold Float64.scoreChunks. apply length_zero_iff_nil in Hempty. rewrite Hempty.
    cbn. by rewrite take_nil.
  - rewrite sliceTo_nonneg by done. f_equal.
    apply (filter64_take_sorted snd).
    + by rewrite ranked64_Permutation.
    + by apply (sortBy64_sorted snd).
Qed.

(** C1: in double precision, for a count [topK] (not negative). The scored
    chunks are ranked by a stable sort: the ranked list is a rearrangement
    of the scored list that keeps chunks of equal score in storage order;
    the result is made of the chunks among the first [topK] of the ranked
    list whose score is above zero, so it has at most [topK] members, all
    of a score above zero. When the scores are numbers (none is NaN, for
    which the order that [sort] makes is not determined), the ranked list
    is in descending order of score, the result is the first [topK] of the
    ranked chunks whose score is above zero, each at its rank, and no
    result has a score [<= 0]. *)
Theorem retrieveRelevantChunks_ranked log e query topK :
  (0 ≤ topK)%Z →
  let scored := Float64.scoreChunks log e query in
  let ranked := Float64.sortBy Float64.byScoreDesc scored in
  let relevant := filter (λ item, (0 <? item.2)%float = true) ranked in
  let results := Float64.retrieveRelevantChunks log e query topK in
  scored = (λ chunk, (chunk, Float64.calculateRelevanceScore log (chunks e)
                               (tokenize query) (chunk_tokens chunk))) <$> chunks e
  ∧ ranked ≡ₚ scored
  ∧ (∀ v, filter (λ item, (item.2 =? v)%float = true) ranked
          = filter (λ item, (item.2 =? v)%float = true) scored)
  ∧ results
    = Float64.toResult
        <$> filter (λ item, (0 <? item.2)%float = true) (take (Z.to_nat topK) ranked)
  ∧ (∀ result, result ∈ results → (0 <? Float64.score result)%float = true)
  ∧ length results ≤ Z.to_nat topK
  ∧ (Forall (λ item, is_nan item.2 = false) scored →
     StronglySorted (λ a b, (b.2 <=? a.2)%float = true) ranked
     ∧ results = Float64.toResult <$> take (Z.to_nat topK) relevant
     ∧ (∀ i item,
          i < Z.to_nat topK →
          relevant !! i = Some item →
          results !! i = Some (Float64.toResult item))
     ∧ (∀ result, result ∈ results → (Float64.score result <=? 0)%float = false)).
Proof.
  intros Hk scored ranked relevant results.
  assert (Hresults : results
            = Float64.toResult
                <$> filter (λ item, (0 <? item.2)%float = true)
                      (take (Z.to_nat topK) ranked)).
  { subst results. unfold Float64.retrieveRelevantChunks. case_decide as Hempty.
    - subst ranked scored. unfold Float64.scoreChunks.
      apply length_zero_iff_nil in Hempty. rewrite Hempty. cbn. by rewrite take_nil.
    - by rewrite sliceTo_nonneg. }
  assert (Hpositive : ∀ result, result ∈ results → (0 <? Float64.score result)%float = true).
  { intros result. rewrite Hresults. intros (item & -> & Hin)%list_elem_of_fmap.
    by apply list_elem_of_filter in Hin as [Hpos _]. }
  split; [done|].
  split; [apply ranked64_Permutation|].
  split; [intros v; apply (sortBy64_stable snd)|].
  split; [done|]. split; [done|]. split.
  { rewrite Hresults, length_fmap. etrans; [apply length_filter|].
    rewrite length_take. lia. }
  intros Hnum.
  assert (Hranked : Forall (λ item : Float64.ScoredChunk, is_nan item.2 = false) ranked).
  { subst ranked. by rewrite ranked64_Permutation. }
  assert (Htake : results = Float64.toResult <$> take (Z.to_nat topK) relevant).
  { subst results. by apply retrieve64_take_filter. }
  split; [by apply ranked64_sorted|]. split; [done|]. split.
  - intros i item Hi Hitem.
    by rewrite Htake, list_lookup_fmap, lookup_take_lt, Hitem.
  - intros result Hin. rewrite leb_ltb, Hpositive; [done|done|done|].
    rewrite Htake in Hin. apply list_elem_of_fmap in Hin as (item & -> & Hin).
    apply elem_of_take in Hin as (i & Hin & _).
    apply list_elem_of_lookup_2, list_elem_of_filter in Hin as [_ Hin].
    rewrite Forall_forall in Hranked. by apply Hranked.
Qed.
End Ranking.

Section RankingWitness.
Import PrimFloat.

Lemma retrieveRelevantChunks_ranked_witness :
  let scored := Float64.scoreChunks logTable rankedEngine (js "alpha") in
  Forall (λ item, is_nan item.2 = false) scored
  ∧ snd <$> scored
    = [0x1.30aa52fbc66c1p-4; 0x1.30aa52fbc66c1p-3; 0; 0x1.30aa52fbc66c1p-4; 0]%float
  ∧ Float64.chunkId <$> Float64.retrieveRelevantChunks logTable rankedEngine (js "alpha") 2
    = [js "doc_2_chunk_0"; js "doc_1_chunk_0"]
  ∧ Float64.chunkId <$> Float64.retrieveRelevantChunks logTable rankedEngine (js "alpha") 5
    = [js "doc_2_chunk_0"; js "doc_1_chunk_0"; js "doc_4_chunk_0"].
Proof.
  intros scored.
  assert (Hnum : Forall (λ item : Float64.ScoredChunk, is_nan item.2 = false) scored)
    by (vm_compute; repeat constructor).
  split; [exact Hnum|]. split; [by vm_compute|].
  destruct (retrieveRelevantChunks_ranked logTable rankedEngine (js "alpha") 2)
    as (_ & _ & _ & _ & _ & _ & Htwo); [lia|].
  destruct (retrieveRelevantChunks_ranked logTable rankedEngine (js "alpha") 5)
    as (_ & _ & _ & _ & _ & _ & Hfive); [lia|].
  destruct (Htwo Hnum) as (_ & -> & _). destruct (Hfive Hnum) as (_ & -> & _).
  split; by vm_compute.
Defined.

(** Rounding can decide a rank. For the query "tango uniform victor" the
    first two chunks of [tiedEngine] score
    [(1/3 * ln(3/2) + 2/3 * ln(3/2)) / sqrt 3] and [1 * ln(3/2) / sqrt 3];
    the doubles are 0.2340953893132494 and 0.23409538931324944, and the
    second chunk is ranked first. *)
Example rounding_decides_rank :
  snd <$> Float64.scoreChunks logTable tiedEngine (js "tango uniform victor")
  = [0x1.df6d6749f556ap-3; 0x1.df6d6749f556bp-3; 0]%float
  ∧ Float64.chunkId
      <$> Float64.retrieveRelevantChunks logTable tiedEngine (js "tango uniform victor") 3
    = [js "doc_2_chunk_0"; js "doc_1_chunk_0"].
Proof. split; by vm_compute. Qed.
End RankingWitness.

(** In exact arithmetic the two scores are the same number. *)
Example exact_scores_tie :
  let corpus := chunks tiedEngine in
  let queryTokens := tokenize (js "tango uniform victor") in
  calculateRelevanceScore corpus queryTokens [js "tango"; js "uniform"; js "uniform"]
  = calculateRelevanceScore corpus queryTokens [js "victor"].
Proof.
  intros corpus queryTokens.
  assert (Hq : queryTokens = [js "tango"; js "uniform"; js "victor"]) by by vm_compute.
  rewrite Hq. unfold calculateRelevanceScore.
  rewrite !decide_False by (simpl; lia).
  f_equal. rewrite !runningTotal_sum. unfold sumOver, contribution. cbn [foldr].
  repeat (rewrite decide_True by (vm_compute; set_solver)
          || rewrite decide_False by (vm_compute; set_solver)).
  unfold tf, idf.
  assert (Hdf : ∀ t, t ∈ [js "tango"; js "uniform"; js "victor"] → docsWithTerm corpus t = 1).
  { intros t Ht. repeat (apply elem_of_cons in Ht as [->|Ht]; [by vm_compute|]).
    by apply elem_of_nil in Ht. }
  rewrite !Hdf by set_solver.
  replace (occurrences (js "tango") [js "tango"; js "uniform"; js "uniform"]) with 1 by by vm_compute.
  replace (occurrences (js "uniform") [js "tango"; js "uniform"; js "uniform"]) with 2 by by vm_compute.
  replace (occurrences (js "victor") [js "victor"]) with 1 by by vm_compute.
  replace (length corpus) with 3 by by vm_compute.
  simpl. lra.
Qed.

(** ** Index invariant *)

Section ChunkOrdinals.
Variables (size overlap : Z) (clock : nat → jsstring).
Variables (docId fileName : jsstring).

(** What the loop of [chunkDocument] keeps true of [(chunks, _, chunkIndex)]. *)
Let numbered (st : list Chunk * jsstring * nat) : Prop :=
  chunk_index <$> st.1.1 = seq 0 st.2
  ∧ Forall (λ chunk, chunk_docId chunk = docId) st.1.1.

Lemma numbered_snoc chunks cur idx buffer :
  numbered (chunks, cur, idx) →
  chunk_index <$> chunks ++ [createChunk buffer docId fileName idx (clock idx)]
    = seq 0 (S idx)
  ∧ Forall (λ chunk, chunk_docId chunk = docId)
      (chunks ++ [createChunk buffer docId fileName idx (clock idx)]).
Proof.
  intros [Hidx Hdoc]. simpl in Hidx, Hdoc. split.
  - by rewrite fmap_app, Hidx, seq_S.
  - apply Forall_app. split; [done|]. by constructor.
Qed.

Lemma chunkStep_numbered st line :
  numbered st → numbered (chunkStep size overlap clock docId fileName st line).
Proof.
  destruct st as [[chunks cur] idx]. intros Hst. unfold chunkStep.
  destruct (closes size cur line); [|done].
  by apply (numbered_snoc chunks cur idx cur).
Qed.

Lemma loop_numbered lines : ∀ st,
  numbered st → numbered (fold_left (chunkStep size overlap clock docId fileName) lines st).
Proof.
  induction lines as [|line lines IH]; intros st Hst; [done|].
  simpl. apply IH. by apply chunkStep_numbered.
Qed.

Lemma chunkDocument_numbered content :
  let chunks := chunkDocument size overlap clock docId fileName content in
  chunk_index <$> chunks = seq 0 (length chunks)
  ∧ Forall (λ chunk, chunk_docId chunk = docId) chunks.
Proof.
  unfold chunkDocument.
  pose proof (loop_numbered (split LF content) ([], [], 0)) as Hloop.
  destruct (fold_left _ _ _) as [[chunks cur] idx].
  specialize (Hloop (conj eq_refl (Forall_nil_2 _))).
  assert (Hlen : length chunks = idx).
  { destruct Hloop as [Hidx _]. simpl in Hidx.
    by rewrite <-(length_fmap chunk_index), Hidx, length_seq. }
  destruct (0 <? length cur).
  - destruct (numbered_snoc chunks cur idx cur Hloop) as [Hidx Hdoc].
    simpl. split; [|done]. rewrite length_app. simpl.
    by rewrite Hlen, Nat.add_1_r.
  - destruct Hloop as [Hidx Hdoc]. simpl in *. by rewrite Hlen.
Qed.
End ChunkOrdinals.

Lemma filter_all {A} (P : A → Prop) `{!∀ x, Decision (P x)} l :
  Forall P l → filter P l = l.
Proof.
  induction 1 as [|x l Hx Hall IH]; [done|]. by rewrite filter_cons_True, IH.
Qed.

Lemma filter_none {A} (P : A → Prop) `{!∀ x, Decision (P x)} l :
  Forall (λ x, ¬ P x) l → filter P l = [].
Proof.
  induction 1 as [|x l Hx Hall IH]; [done|]. by rewrite filter_cons_False.
Qed.

(** The engine after [addDocument] and after [removeDocument], whatever
    the store answers. *)
Lemma addDocument_engine e env fileName content chatId :
  let newChunks :=
    chunkDocument (chunkSize e) (chunkOverlap e) (env_clock env) (env_docId env)
      fileName content in
  (addDocument e env fileName content chatId).1
  = {| documents :=
         <[env_docId env :=
             {| doc_id := env_docId env; doc_name := fileName; doc_content := content;
                doc_addedAt := env_addedAt env; doc_chunkCount := length newChunks;
                doc_chatId := chatId |}]> (documents e);
       chunks := chunks e ++ newChunks;
       chunkSize := chunkSize e; chunkOverlap := chunkOverlap e |}.
Proof.
  unfold addDocument. by destruct (env_saveDocument env), (env_saveChunks env).
Qed.

Lemma removeDocument_engine e env docId :
  (removeDocument e env docId).1
  = {| documents := delete docId (documents e);
       chunks := filter (λ chunk, chunk_docId chunk ≠ docId) (chunks e);
       chunkSize := chunkSize e; chunkOverlap := chunkOverlap e |}.
Proof.
  unfold removeDocument.
  by destruct (env_deleteDocument env), (env_deleteChunksByDocId env).
Qed.

Lemma indexInvariant_new : indexInvariant newEngine.
Proof.
  split.
  - intros chunk Hin. by apply elem_of_nil in Hin.
  - intros docId doc Hdoc. simpl in Hdoc. by rewrite lookup_empty in Hdoc.
Qed.

Lemma indexInvariant_updateConfig e size overlap :
  indexInvariant e → indexInvariant (updateConfig e size overlap).
Proof. done. Qed.

Lemma indexInvariant_addDocument e env fileName content chatId :
  documents e !! env_docId env = None →
  indexInvariant e →
  indexInvariant (addDocument e env fileName content chatId).1.
Proof.
  intros Hfresh [Hlive Hdocs]. rewrite addDocument_engine.
  destruct (chunkDocument_numbered (chunkSize e) (chunkOverlap e) (env_clock env)
              (env_docId env) fileName content) as [Hidx Hown].
  set (newChunks := chunkDocument _ _ _ _ _ _) in *.
  assert (Hold : Forall (λ chunk, chunk_docId chunk ≠ env_docId env) (chunks e)).
  { apply Forall_forall. intros chunk Hin Heq.
    destruct (Hlive chunk Hin) as [doc Hdoc]. congruence. }
  split.
  - intros chunk Hin. simpl in *. fold newChunks in Hin.
    apply elem_of_app in Hin as [Hin|Hin].
    + destruct (Hlive chunk Hin) as [doc Hdoc]. exists doc.
      rewrite lookup_insert_ne; [done|]. intros Heq. congruence.
    + rewrite Forall_forall in Hown. rewrite (Hown chunk Hin).
      eexists. apply lookup_insert_eq.
  - intros docId doc Hdoc. unfold chunksOf. simpl in *. fold newChunks in Hdoc |- *.
    rewrite filter_app.
    destruct (decide (env_docId env = docId)) as [<-|Hne].
    + rewrite lookup_insert_eq in Hdoc. injection Hdoc as <-.
      rewrite (filter_none _ (chunks e)) by done.
      rewrite (filter_all _ newChunks) by done. done.
    + rewrite lookup_insert_ne in Hdoc by done.
      rewrite (filter_none _ newChunks), app_nil_r.
      * by apply Hdocs.
      * eapply Forall_impl; [exact Hown|]. simpl. congruence.
Qed.

Lemma indexInvariant_removeDocument e env docId :
  indexInvariant e → indexInvariant (removeDocument e env docId).1.
Proof.
  intros [Hlive Hdocs]. rewrite removeDocument_engine. split.
  - intros chunk Hin. simpl in *.
    apply list_elem_of_filter in Hin as [Hne Hin].
    destruct (Hlive chunk Hin) as [doc Hdoc]. exists doc.
    by rewrite lookup_delete_ne.
  - intros id doc Hdoc. simpl in Hdoc.
    apply lookup_delete_Some in Hdoc as [Hne Hdoc].
    unfold chunksOf. simpl chunks.
    assert (Hsame : filter (λ chunk, chunk_docId chunk = id)
                      (filter (λ chunk, chunk_docId chunk ≠ docId) (chunks e))
                    = chunksOf e id).
    { unfold chunksOf. rewrite list_filter_filter.
      apply list_filter_iff. intros chunk. split; [by intros []|].
      intros ->. done. }
    rewrite Hsame. by apply Hdocs.
Qed.

(** C4: the invariant rests on identifiers that are never issued twice,
    which [generateDocId] promises and does not check. When it returns a
    stored identifier, [addDocument] replaces the document and appends the
    new chunks to those of the replaced one: the two chunks stored for the
    one document both carry the ordinal 0, the document's [chunkCount] is 1,
    the first chunk still bears the name of the replaced document, and the
    invariant of the index is lost. *)
Theorem addDocument_repeated_id :
  let docId := js "doc_1700000000000_k3j9x0q2m" in
  size (documents collidingEngine) = 1
  ∧ chunk_docId <$> chunks collidingEngine = [docId; docId]
  ∧ chunk_index <$> chunksOf collidingEngine docId = [0; 0]
  ∧ chunk_docName <$> chunksOf collidingEngine docId = [js "a.txt"; js "z.txt"]
  ∧ (doc_name <$> documents collidingEngine !! docId) = Some (js "z.txt")
  ∧ (doc_chunkCount <$> documents collidingEngine !! docId) = Some 1
  ∧ length (chunksOf collidingEngine docId) = 2
  ∧ ¬ indexInvariant collidingEngine.
Proof.
  intros docId. repeat (split; [by vm_compute|]).
  intros [_ Hdocs].
  destruct (documents collidingEngine !! docId) as [doc|] eqn:Hdoc;
    [|by vm_compute in Hdoc].
  destruct (Hdocs docId doc Hdoc) as (_ & _ & Hcount).
  vm_compute in Hdoc. injection Hdoc as <-. by vm_compute in Hcount.
Qed.

(** ** Ingestion and the store *)

(** C10: when [saveDocument] or [saveChunks] rejects, [addDocument] resolves
    to a failure result carrying the message, and the engine it leaves
    holds the document and all its chunks: the statistics count them and
    retrieval scores them, and returns each of them that scores above zero
    when [topK] covers the corpus. *)
Theorem addDocument_not_atomic e env fileName content chatId message :
  env_saveDocument env = Rejected message
  ∨ (env_saveDocument env = Resolved ∧ env_saveChunks env = Rejected message) →
  let e' := (addDocument e env fileName content chatId).1 in
  let newChunks :=
    chunkDocument (chunkSize e) (chunkOverlap e) (env_clock env) (env_docId env)
      fileName content in
  (addDocument e env fileName content chatId).2 = AddFailure message
  ∧ (∃ doc, documents e' !! env_docId env = Some doc
            ∧ doc_name doc = fileName ∧ doc_content doc = content
            ∧ doc_chunkCount doc = length newChunks)
  ∧ chunks e' = chunks e ++ newChunks
  ∧ getProperty (getStats e') "chunkCount" = Some (length (chunks e) + length newChunks)
  ∧ (documents e !! env_docId env = None →
       getProperty (getStats e') "documentCount" = Some (S (size (documents e))))
  ∧ (∀ query chunk, chunk ∈ newChunks →
       (chunk, calculateRelevanceScore (chunks e') (tokenize query) (chunk_tokens chunk))
         ∈ scoreChunks e' query)
  ∧ (∀ query topK chunk,
       chunk ∈ newChunks →
       (Z.of_nat (length (chunks e')) ≤ topK)%Z →
       (0 < calculateRelevanceScore (chunks e') (tokenize query) (chunk_tokens chunk))%R →
       toResult (chunk, calculateRelevanceScore (chunks e') (tokenize query)
                          (chunk_tokens chunk))
         ∈ retrieveRelevantChunks e' query topK).
Proof.
  intros Hfail e' newChunks.
  assert (Hresult : (addDocument e env fileName content chatId).2 = AddFailure message).
  { unfold addDocument. by destruct Hfail as [->|[-> ->]]. }
  subst e'. rewrite addDocument_engine. fold newChunks.
  set (e' := {| documents := _ |}).
  assert (Hin : ∀ chunk, chunk ∈ newChunks → chunk ∈ chunks e').
  { intros chunk Hc. simpl. apply elem_of_app. by right. }
  split; [|split; [|split; [|split; [|split; [|split]]]]].
  - done.
  - eexists. split; [apply lookup_insert_eq|done].
  - done.
  - simpl. by rewrite length_app.
  - intros Hfresh. simpl. by rewrite map_size_insert_None.
  - intros query chunk Hc. unfold scoreChunks.
    apply list_elem_of_fmap. exists chunk. split; [done|by apply Hin].
  - intros query topK chunk Hc Hk Hpos. apply retrieve_includes; [done|by apply Hin|done].
Qed.

Lemma addDocument_not_atomic_witness :
  (addDocument newEngine (sampleEnv "doc_1" (Rejected (js "QuotaExceededError")))
     (js "a.txt") (js "alpha") (js "global")).2
  = AddFailure (js "QuotaExceededError")
  ∧ chunk_id <$>
      chunks (addDocument newEngine (sampleEnv "doc_1" (Rejected (js "QuotaExceededError")))
                (js "a.txt") (js "alpha") (js "global")).1
    = [js "doc_1_chunk_0"].
Proof.
  pose proof (addDocument_not_atomic newEngine
                (sampleEnv "doc_1" (Rejected (js "QuotaExceededError")))
                (js "a.txt") (js "alpha") (js "global") (js "QuotaExceededError")
                (or_introl eq_refl)) as (Hresult & _ & Hchunks & _).
  split; [exact Hresult|]. rewrite Hchunks. by vm_compute.
Defined.

(** ** Statistics *)

(** [totalSize] adds up the lengths of the stored contents. *)
Lemma totalContentLength_insert docs docId doc :
  docs !! docId = None →
  totalContentLength (<[docId := doc]> docs)
  = totalContentLength docs + length (doc_content doc).
Proof.
  intros Hfresh. unfold totalContentLength.
  rewrite (map_fold_insert_L (λ _ doc sum, sum + length (doc_content doc)) 0); [done| |done].
  intros. lia.
Qed.

(** C2 on the code: [getStats] builds an object of three properties,
    [documentCount], [chunkCount] and [totalSize]; it has no property
    [totalChars], the one that [updateStats] reads, so the character
    counter of the page is never written. With three documents of 5, 4 and
    5 characters the object is [{3, 3, 14}] and [totalChars] is undefined. *)
Theorem getStats_properties :
  (∀ e, getStats e =
          [ ("documentCount"%string, size (documents e));
            ("chunkCount"%string, length (chunks e));
            ("totalSize"%string, totalContentLength (documents e)) ])
  ∧ (∀ e, getProperty (getStats e) "totalChars" = None)
  ∧ (∀ e, charCountText (updateStats e) = None)
  ∧ getStats sampleEngine
    = [ ("documentCount"%string, 3); ("chunkCount"%string, 3); ("totalSize"%string, 14) ]
  ∧ getProperty (getStats sampleEngine) "totalSize" = Some 14
  ∧ getProperty (getStats sampleEngine) "totalChars" = None.
Proof. repeat split; by vm_compute. Qed.

(** ** Scope of a document *)

(** The score of a one-token query, from the counts that enter it. *)
Lemma score_single_counts corpus token chunkTokens n len df N :
  token ∈ chunkTokens →
  occurrences token chunkTokens = n →
  length chunkTokens = len →
  docsWithTerm corpus token = df →
  length corpus = N →
  calculateRelevanceScore corpus [token] chunkTokens
  = (INR n / INR len * ln (INR N / INR (df + 1)))%R.
Proof.
  intros Hin <- <- <- <-. rewrite score_single by done. done.
Qed.

Lemma ln_three_halves_positive : (0 < ln (3 / 2))%R.
Proof. rewrite <-ln_1. apply ln_increasing; lra. Qed.

(** C3 on the code: "doc_1" was added for the conversation "chat_1" only,
    the list of documents shown in "chat_2" leaves it out, and yet the
    retrieval made for a message sent in "chat_2" returns its chunk:
    [retrieveRelevantChunks] is called without the conversation and looks
    at every stored chunk. *)
Theorem retrieval_crosses_scope :
  let owner := documents (ragEngine sampleApp) !! js "doc_1" in
  doc_chatId <$> owner = Some (js "chat_1")
  ∧ currentChatId sampleApp = js "chat_2"
  ∧ uploadScope sampleApp = js "chat_2"
  ∧ listedDocuments sampleApp (getAllDocuments (ragEngine sampleApp)) = []
  ∧ ∃ result chunk,
      result ∈ handleSendMessage_relevantChunks sampleApp (js "alpha")
      ∧ chunk ∈ chunks (ragEngine sampleApp)
      ∧ chunkId result = chunk_id chunk
      ∧ chunk_docId chunk = js "doc_1"
      ∧ (0 < score result)%R.
Proof.
  split; [by vm_compute|]. split; [done|]. split; [done|]. split; [by vm_compute|].
  set (chunk := createChunk (js "alpha") (js "doc_1") (js "a.txt") 0
                  (js "2024-01-01T00:00:00.000Z")).
  assert (Hchunks : chunk ∈ chunks sampleEngine) by (vm_compute; left).
  assert (Hscore :
    calculateRelevanceScore (chunks sampleEngine) (tokenize (js "alpha")) (chunk_tokens chunk)
    = (INR 1 / INR 1 * ln (INR 3 / INR (1 + 1)))%R).
  { replace (tokenize (js "alpha")) with [js "alpha"] by (by vm_compute).
    apply score_single_counts; [vm_compute; left|by vm_compute..]. }
  assert (Hpos : (0 < calculateRelevanceScore (chunks sampleEngine) (tokenize (js "alpha"))
                        (chunk_tokens chunk))%R).
  { rewrite Hscore. simpl INR.
    replace (1 / 1 * ln ((1 + 1 + 1) / (1 + 1)))%R with (ln (3 / 2)).
    - apply ln_three_halves_positive.
    - replace ((1 + 1 + 1) / (1 + 1))%R with (3 / 2)%R by lra. lra. }
  eexists _, chunk. split; [|split; [done|split; [|split]]].
  - unfold handleSendMessage_relevantChunks.
    apply (retrieve_includes sampleEngine (js "alpha") 3 chunk); [by vm_compute|done|done].
  - done.
  - done.
  - exact Hpos.
Qed.

(** * Further properties *)

(** ** Tokenizer: shape of the tokens *)

(** A statement about every code unit is checked on the 256 of them. *)
Ltac each_char c := destruct c as [[] [] [] [] [] [] [] []]; vm_compute; try done.

Lemma normalize_fmap text : replacePunct (toLowerCase text) = normChar <$> text.
Proof. unfold replacePunct, toLowerCase. by rewrite <-list_fmap_compose. Qed.

Lemma normChar_token c : isSpace (normChar c) = false → isTokenChar (normChar c) = true.
Proof. each_char c. Qed.

Lemma normChar_space c : isSpace c = true → isSpace (normChar c) = true.
Proof. each_char c. Qed.

Lemma normChar_separator c : isWordChar c = false → isSpace (normChar c) = true.
Proof. each_char c. Qed.

Lemma normChar_lowerChar c : normChar (lowerChar c) = normChar c.
Proof. each_char c. Qed.

(** [tokenize] through the maximal runs; the pieces that differ are empty
    and filtered out. *)
Lemma tokenize_fields text :
  tokenize text
  = filter (λ token, ¬ isStopWord token)
      (filter (λ token, 2 < length token) (fields [] (normChar <$> text))).
Proof.
  unfold tokenize, splitWhitespace. rewrite normalize_fmap.
  by rewrite (filter_splitSpaces (λ token, 2 < length token)) by (simpl; lia || done).
Qed.

Section Fields.
Variable R : ascii → Prop.

(** Every piece is made of the code units read that are not white space. *)
Lemma fields_Forall s : ∀ cur,
  Forall R cur →
  Forall (λ c, isSpace c = false → R c) s →
  Forall (Forall R) (fields cur s).
Proof.
  induction s as [|c s IH]; intros cur Hcur Hs; simpl.
  - destruct cur; [constructor|]. constructor; [done|constructor].
  - apply Forall_cons in Hs as [Hc Hs]. destruct (isSpace c) eqn:Hsp.
    + destruct cur; [by apply IH|].
      constructor; [done|]. by apply IH.
    + apply IH; [|done]. apply Forall_app. split; [done|]. constructor; [by apply Hc|done].
Qed.
End Fields.

Lemma fields_app_space c a b : ∀ cur,
  isSpace c = true →
  fields cur (a ++ c :: b) = fields cur a ++ fields [] b.
Proof.
  induction a as [|x a IH]; intros cur Hc; simpl.
  - rewrite Hc. by destruct cur.
  - destruct (isSpace x); [|by apply IH].
    destruct cur; by rewrite IH.
Qed.

Lemma fields_leading_spaces w s :
  Forall (λ c, isSpace c = true) w → fields [] (w ++ s) = fields [] s.
Proof.
  induction 1 as [|c w Hc Hw IH]; simpl; [done|]. by rewrite Hc.
Qed.

Lemma fields_trailing_spaces w s : ∀ cur,
  Forall (λ c, isSpace c = true) w → fields cur (s ++ w) = fields cur s.
Proof.
  intros cur Hw. revert cur. induction s as [|c s IH]; intros cur; simpl.
  - induction Hw as [|c w Hc Hw IH] in cur |- *; simpl; [done|].
    rewrite Hc. destruct cur; [by apply IH|]. rewrite IH. done.
  - destruct (isSpace c); [|by apply IH].
    destruct cur; by rewrite IH.
Qed.

(** [trim] takes white space off both ends and nothing else. *)
Lemma dropSpaces_split s :
  ∃ w, Forall (λ c, isSpace c = true) w ∧ s = w ++ dropSpaces s.
Proof.
  induction s as [|c s (w & Hw & IH)]; simpl.
  - by exists [].
  - destruct (isSpace c) eqn:Hc.
    + exists (c :: w). split; [by constructor|]. simpl. by rewrite <-IH.
    + by exists [].
Qed.

Lemma trim_split s :
  ∃ w1 w2, Forall (λ c, isSpace c = true) w1 ∧ Forall (λ c, isSpace c = true) w2
           ∧ s = w1 ++ trim s ++ w2.
Proof.
  destruct (dropSpaces_split s) as (w1 & Hw1 & Hs).
  destruct (dropSpaces_split (reverse (dropSpaces s))) as (w & Hw & Hr).
  exists w1, (reverse w). split; [done|]. split.
  - by apply Forall_reverse.
  - unfold trim. rewrite <-reverse_app, <-Hr, reverse_involutive. done.
Qed.

Lemma Forall_space_fmap w :
  Forall (λ c, isSpace c = true) w →
  Forall (λ c, isSpace c = true) (normChar <$> w).
Proof.
  intros Hw. apply Forall_fmap. eapply Forall_impl; [exact Hw|].
  intros c Hc. by apply normChar_space.
Qed.

Lemma tokenize_trim s : tokenize (trim s) = tokenize s.
Proof.
  destruct (trim_split s) as (w1 & w2 & Hw1 & Hw2 & Hs).
  rewrite !tokenize_fields. rewrite Hs at 2.
  rewrite !fmap_app.
  rewrite fields_leading_spaces by (apply Forall_space_fmap; exact Hw1).
  by rewrite fields_trailing_spaces by (apply Forall_space_fmap; exact Hw2).
Qed.

(** X1: a token is never shorter than 3, never a stop word, and holds
    nothing but digits, lower-case letters a-z and underscores. *)
Theorem tokenize_shape text token :
  token ∈ tokenize text →
  3 ≤ length token
  ∧ (token ∉ stopWords)
  ∧ Forall (λ c, isTokenChar c = true) token.
Proof.
  rewrite tokenize_fields. intros Hin.
  apply list_elem_of_filter in Hin as [Hstop Hin].
  apply list_elem_of_filter in Hin as [Hlen Hin].
  split; [lia|]. split; [by rewrite <-isStopWord_spec|].
  assert (Hall : Forall (Forall (λ c, isTokenChar c = true))
                   (fields [] (normChar <$> text))).
  { apply fields_Forall; [constructor|].
    apply Forall_fmap, Forall_forall. intros c _ Hc. by apply normChar_token. }
  rewrite Forall_forall in Hall. by apply Hall.
Qed.

Lemma tokenize_shape_witness :
  3 ≤ length (js "b_c9")
  ∧ (js "b_c9" ∉ stopWords)
  ∧ Forall (λ c, isTokenChar c = true) (js "b_c9").
Proof.
  apply (tokenize_shape (js "The A-B_C9, is it?")). vm_compute. left.
Defined.

(** X2: on texts of code units up to U+00FF, [tokenize] does not see the
    case of the text nor the white space around it, and a code unit that is
    no word character separates: the tokens of the two sides are found one
    after the other. (Above U+00FF the last part has exceptions: the Kelvin
    sign U+212A is no word character and [toLowerCase] makes it "k".) *)
Theorem tokenize_insensitive :
  (∀ text, tokenize (toLowerCase text) = tokenize text)
  ∧ (∀ text, tokenize (trim text) = tokenize text)
  ∧ (∀ a c b, isWordChar c = false →
       tokenize (a ++ c :: b) = tokenize a ++ tokenize b).
Proof.
  split; [|split].
  - intros text. rewrite !tokenize_fields. unfold toLowerCase.
    rewrite <-list_fmap_compose. do 3 f_equal.
    apply list_fmap_ext. intros i c _. apply normChar_lowerChar.
  - apply tokenize_trim.
  - intros a c b Hc. rewrite !tokenize_fields, fmap_app, fmap_cons.
    rewrite fields_app_space by (by apply normChar_separator).
    by rewrite !filter_app.
Qed.

(** ** Chunker: what a chunk is made of *)

Lemma dropSpaces_idemp s : dropSpaces (dropSpaces s) = dropSpaces s.
Proof.
  induction s as [|c s IH]; simpl; [done|].
  destruct (isSpace c) eqn:Hc; [done|]. simpl. by rewrite Hc.
Qed.

Lemma dropSpaces_head s c t : dropSpaces s = c :: t → isSpace c = false.
Proof.
  induction s as [|a s IH]; simpl; [done|].
  destruct (isSpace a) eqn:Ha; [done|]. by intros [= <- _].
Qed.

Lemma trim_idemp s : trim (trim s) = trim s.
Proof.
  assert (Hfix : dropSpaces (trim s) = trim s).
  { destruct (dropSpaces_split (reverse (dropSpaces s))) as (w & _ & Hr).
    assert (Hs : dropSpaces s = trim s ++ reverse w).
    { unfold trim. by rewrite <-reverse_app, <-Hr, reverse_involutive. }
    destruct (trim s) as [|c t] eqn:Htrim; [done|].
    simpl. by rewrite (dropSpaces_head _ _ _ Hs). }
  unfold trim at 1. rewrite Hfix. unfold trim.
  by rewrite reverse_involutive, dropSpaces_idemp.
Qed.

Section ChunksOfDocument.
Variables (size overlap : Z) (clock : nat → jsstring).
Variables (docId fileName : jsstring).
Variable Q : Chunk → Prop.
Hypothesis Q_createChunk :
  ∀ buffer index, Q (createChunk buffer docId fileName index (clock index)).

(** Every chunk of a document comes out of [createChunk]. *)
Lemma chunkDocument_Forall content :
  Forall Q (chunkDocument size overlap clock docId fileName content).
Proof.
  unfold chunkDocument.
  assert (Hloop : ∀ lines st, Forall Q st.1.1 →
            Forall Q (fold_left (chunkStep size overlap clock docId fileName) lines st).1.1).
  { induction lines as [|line lines IH]; intros [[chunks cur] idx] Hst; [done|].
    simpl. apply IH. unfold chunkStep. destruct (closes size cur line); [|done].
    simpl. apply Forall_app. split; [done|]. by constructor. }
  specialize (Hloop (split LF content) ([], [], 0) (Forall_nil_2 _)).
  destruct (fold_left _ _ _) as [[chunks cur] idx]. simpl in Hloop.
  destruct (0 <? length cur); [|done].
  apply Forall_app. split; [done|]. by constructor.
Qed.
End ChunksOfDocument.

Lemma length_splitOn sep s : ∀ cur,
  length (splitOn sep cur s) = S (length (filter (λ c, c = sep) s)).
Proof.
  induction s as [|c s IH]; intros cur; simpl; [done|].
  rewrite filter_cons. destruct (Ascii.eqb_spec c sep) as [->|Hc].
  - rewrite decide_True by done. simpl. by rewrite IH.
  - rewrite decide_False by done. apply IH.
Qed.

Lemma splitOn_no_separator sep s : ∀ cur, sep ∉ s → splitOn sep cur s = [cur ++ s].
Proof.
  induction s as [|c s IH]; intros cur Hnot; simpl.
  - by rewrite app_nil_r.
  - apply not_elem_of_cons in Hnot as [Hne Hnot].
    destruct (Ascii.eqb_spec c sep) as [->|_]; [done|].
    by rewrite IH, <-app_assoc.
Qed.

Section ChunkCount.
Variables (size overlap : Z) (clock : nat → jsstring).
Variables (docId fileName : jsstring).

(** Chunks closed so far, and one more if the buffer holds text. *)
Let pending (st : list Chunk * jsstring * nat) : nat :=
  length st.1.1 + (if 0 <? length st.1.2 then 1 else 0).

Lemma chunkStep_pending st line :
  pending (chunkStep size overlap clock docId fileName st line) ≤ S (pending st).
Proof.
  destruct st as [[chunks cur] idx]. unfold chunkStep, pending.
  destruct (closes size cur line) eqn:Hc; cbn [fst snd].
  - apply andb_true_iff in Hc as [_ ->]. rewrite length_app. simpl.
    case_match; lia.
  - repeat case_match; lia.
Qed.

Lemma loop_pending lines : ∀ st,
  pending (fold_left (chunkStep size overlap clock docId fileName) lines st)
  ≤ pending st + length lines.
Proof.
  induction lines as [|line lines IH]; intros st; simpl; [lia|].
  etrans; [apply IH|]. pose proof (chunkStep_pending st line). lia.
Qed.

Lemma chunkDocument_length content :
  length (chunkDocument size overlap clock docId fileName content)
  ≤ S (length (filter (λ c, c = LF) content)).
Proof.
  unfold chunkDocument, split.
  pose proof (loop_pending (splitOn LF [] content) ([], [], 0)) as Hloop.
  rewrite length_splitOn in Hloop. unfold pending in Hloop.
  destruct (fold_left _ _ _) as [[chunks cur] idx]. simpl in Hloop.
  destruct (0 <? length cur); [rewrite length_app; simpl|]; lia.
Qed.
End ChunkCount.

(** X3: a text of [n] line feeds gives at most [n + 1] chunks, one per
    line at most; and a non-empty text without line feed is one chunk
    whatever [chunkSize] is, since a line is never split. *)
Theorem chunkDocument_lines size overlap clock docId fileName content :
  length (chunkDocument size overlap clock docId fileName content)
  ≤ S (length (filter (λ c, c = LF) content))
  ∧ (LF ∉ content → content ≠ [] →
     chunkDocument size overlap clock docId fileName content
     = [createChunk content docId fileName 0 (clock 0)]).
Proof.
  split; [apply chunkDocument_length|].
  intros Hline Hne. unfold chunkDocument, split.
  rewrite splitOn_no_separator by done. simpl.
  rewrite closes_empty. simpl.
  destruct content; done.
Qed.

Lemma chunkDocument_lines_witness :
  chunkDocument 5 0 (λ _, []) (js "doc_1") (js "a.txt") (js "one long line of text")
  = [createChunk (js "one long line of text") (js "doc_1") (js "a.txt") 0 []].
Proof.
  apply (chunkDocument_lines 5 0 (λ _, [])); [|done].
  vm_compute. intros Hin. by repeat (apply elem_of_cons in Hin as [Heq|Hin]; [done|]);
    apply elem_of_nil in Hin.
Defined.

(** ** Index: the chunks that are stored *)

Lemma js_inj s1 s2 : js s1 = js s2 → s1 = s2.
Proof.
  intros Heq. by rewrite <-(string_of_list_ascii_of_string s1),
    <-(string_of_list_ascii_of_string s2); unfold js in Heq; rewrite Heq.
Qed.

Lemma to_uint_not_Nil n : Nat.to_uint n ≠ Decimal.Nil.
Proof.
  intros Hnil. pose proof (DecimalNat.Unsigned.to_of (Nat.to_uint n)) as Hto.
  rewrite DecimalNat.Unsigned.of_to, Hnil in Hto. discriminate.
Qed.

Lemma decimal_inj n m : decimal n = decimal m → n = m.
Proof.
  intros Heq. apply js_inj in Heq. apply DecimalNat.Unsigned.to_uint_inj.
  pose proof (NilZero.usu _ (to_uint_not_Nil n)) as Hn.
  pose proof (NilZero.usu _ (to_uint_not_Nil m)) as Hm.
  rewrite Heq in Hn. congruence.
Qed.

Lemma string_of_uint_digits d :
  Forall (λ c, c ≠ "_"%char) (js (NilEmpty.string_of_uint d)).
Proof. induction d; simpl; constructor; done. Qed.

Lemma decimal_digits n : Forall (λ c, c ≠ "_"%char) (decimal n).
Proof.
  unfold decimal, NilZero.string_of_uint.
  destruct (Nat.to_uint n); try apply string_of_uint_digits.
  by repeat constructor.
Qed.

(** A text is cut in one way only at its first underscore. *)
Lemma first_underscore_inj a1 a2 r1 r2 :
  Forall (λ c, c ≠ "_"%char) a1 → Forall (λ c, c ≠ "_"%char) a2 →
  a1 ++ "_"%char :: r1 = a2 ++ "_"%char :: r2 → a1 = a2 ∧ r1 = r2.
Proof.
  intros H1. revert a2. induction H1 as [|c a1 Hc H1 IH]; intros a2 H2 Heq.
  - destruct H2 as [|c a2 Hc H2]; simpl in Heq; [by injection Heq|].
    injection Heq as <- _. done.
  - destruct H2 as [|c' a2 Hc' H2]; simpl in Heq.
    + injection Heq as -> _. done.
    + injection Heq as <- Heq. destruct (IH a2 H2 Heq) as [-> ->]. done.
Qed.

(** The identifier of a chunk tells its document and its ordinal. *)
Lemma chunk_id_inj docId1 docId2 i j :
  docId1 ++ js "_chunk_" ++ decimal i = docId2 ++ js "_chunk_" ++ decimal j →
  docId1 = docId2 ∧ i = j.
Proof.
  intros Heq. apply (f_equal reverse) in Heq.
  rewrite !reverse_app in Heq.
  change (reverse (js "_chunk_")) with ("_"%char :: js "knuhc_") in Heq.
  rewrite <-!app_assoc in Heq. simpl in Heq.
  apply first_underscore_inj in Heq as [Hdec Hrest];
    [|apply Forall_reverse, decimal_digits..].
  apply (inj reverse) in Hdec. apply decimal_inj in Hdec.
  apply (app_inv_head (js "knuhc_")) in Hrest. apply (inj reverse) in Hrest. done.
Qed.

Lemma createChunk_facts buffer docId fileName index createdAt :
  let chunk := createChunk buffer docId fileName index createdAt in
  chunk_id chunk = chunk_docId chunk ++ js "_chunk_" ++ decimal (chunk_index chunk)
  ∧ chunk_tokens chunk = tokenize (chunk_content chunk)
  ∧ trim (chunk_content chunk) = chunk_content chunk
  ∧ chunk_docName chunk = fileName.
Proof.
  simpl. split; [done|]. split; [by rewrite tokenize_trim|].
  split; [apply trim_idemp|done].
Qed.

Lemma NoDup_fmap_filter {A B} (f : A → B) (P : A → Prop) `{!∀ x, Decision (P x)} l :
  NoDup (f <$> l) → NoDup (f <$> filter P l).
Proof.
  induction l as [|x l IH]; [done|]. rewrite fmap_cons, NoDup_cons. intros [Hx Hl].
  rewrite filter_cons. case_decide; [|by apply IH].
  rewrite fmap_cons, NoDup_cons. split; [|by apply IH].
  intros Hin. apply Hx. apply list_elem_of_fmap in Hin as (y & -> & Hy).
  apply list_elem_of_filter in Hy as [_ Hy]. by apply list_elem_of_fmap_2.
Qed.

Lemma chunkInvariant_addDocument e env fileName content chatId :
  documents e !! env_docId env = None →
  chunkInvariant e →
  chunkInvariant (addDocument e env fileName content chatId).1.
Proof.
  intros Hfresh [Hids Hchunks]. rewrite addDocument_engine.
  set (docId := env_docId env) in *.
  destruct (chunkDocument_numbered (chunkSize e) (chunkOverlap e) (env_clock env)
              docId fileName content) as [Hidx Hown].
  pose proof (chunkDocument_Forall (chunkSize e) (chunkOverlap e) (env_clock env)
                docId fileName
                (λ chunk, chunk_id chunk
                            = chunk_docId chunk ++ js "_chunk_" ++ decimal (chunk_index chunk)
                          ∧ chunk_tokens chunk = tokenize (chunk_content chunk)
                          ∧ trim (chunk_content chunk) = chunk_content chunk
                          ∧ chunk_docName chunk = fileName)
                (λ buffer index, createChunk_facts buffer docId fileName index _)
                content) as Hnew.
  set (newChunks := chunkDocument _ _ _ _ _ _) in *.
  rewrite Forall_forall in Hown, Hnew.
  split; simpl.
  - rewrite fmap_app. apply NoDup_app. split; [done|]. split.
    + intros id Hold Hin.
      apply list_elem_of_fmap in Hold as (old & -> & Hold).
      apply list_elem_of_fmap in Hin as (new & Heq & Hin).
      destruct (Hchunks old Hold) as (Hid & _ & _ & doc & Hdoc & _).
      destruct (Hnew new Hin) as (Hid' & _).
      rewrite Hid, Hid', (Hown new Hin) in Heq.
      apply chunk_id_inj in Heq as [Heq _]. congruence.
    + assert (Hmap : chunk_id <$> newChunks
                     = (λ i, docId ++ js "_chunk_" ++ decimal i) <$> seq 0 (length newChunks)).
      { rewrite <-Hidx, <-list_fmap_compose. apply list_fmap_ext.
        intros i chunk Hi. apply list_elem_of_lookup_2 in Hi. simpl.
        destruct (Hnew chunk Hi) as (-> & _). by rewrite (Hown chunk Hi). }
      rewrite Hmap. apply NoDup_fmap_2; [|apply NoDup_seq].
      intros i j Heq. by apply chunk_id_inj in Heq as [_ ->].
  - intros chunk Hin. apply elem_of_app in Hin as [Hin|Hin].
    + destruct (Hchunks chunk Hin) as (Hid & Htok & Htrim & doc & Hdoc & Hname).
      repeat (split; [done|]). exists doc. split; [|done].
      rewrite lookup_insert_ne; [done|]. intros Heq. congruence.
    + destruct (Hnew chunk Hin) as (Hid & Htok & Htrim & Hname).
      repeat (split; [done|]). rewrite (Hown chunk Hin).
      eexists. split; [apply lookup_insert_eq|]. by rewrite Hname.
Qed.

Lemma chunkInvariant_removeDocument e env docId :
  chunkInvariant e → chunkInvariant (removeDocument e env docId).1.
Proof.
  intros [Hids Hchunks]. rewrite removeDocument_engine. split; simpl.
  - by apply NoDup_fmap_filter.
  - intros chunk Hin. apply list_elem_of_filter in Hin as [Hne Hin].
    destruct (Hchunks chunk Hin) as (Hid & Htok & Htrim & doc & Hdoc & Hname).
    repeat (split; [done|]). exists doc. by rewrite lookup_delete_ne.
Qed.

Lemma reachable_chunkInvariant e : reachable e → chunkInvariant e.
Proof.
  induction 1 as [|e size overlap _ IH|e env fileName content chatId _ IH Hfresh
                  |e env docId _ IH].
  - split; [constructor|]. intros chunk Hin. by apply elem_of_nil in Hin.
  - done.
  - by apply chunkInvariant_addDocument.
  - by apply chunkInvariant_removeDocument.
Qed.

Lemma reachable_sampleEngine : reachable sampleEngine.
Proof.
  unfold sampleEngine.
  repeat (apply reachable_new || (apply reachable_addDocument; [|by vm_compute])).
Qed.

(** X4: in every state of the index reached with identifiers that were not
    stored when [generateDocId] returned them, a stored chunk has the
    identifier made of its document's identifier and its ordinal, the
    tokens of its stored content, a content without white space at either
    end, and the name of the stored document it belongs to. *)
Theorem reachable_chunk_consistent e chunk :
  reachable e → chunk ∈ chunks e →
  chunk_id chunk = chunk_docId chunk ++ js "_chunk_" ++ decimal (chunk_index chunk)
  ∧ chunk_tokens chunk = tokenize (chunk_content chunk)
  ∧ trim (chunk_content chunk) = chunk_content chunk
  ∧ ∃ doc, documents e !! chunk_docId chunk = Some doc
           ∧ doc_name doc = chunk_docName chunk.
Proof.
  intros Hreach Hin. by apply (reachable_chunkInvariant e Hreach).
Qed.

Lemma reachable_chunk_consistent_witness :
  let chunk := createChunk (js "beta") (js "doc_2") (js "b.txt") 0
                 (js "2024-01-01T00:00:00.000Z") in
  chunk_tokens chunk = tokenize (chunk_content chunk).
Proof.
  intros chunk.
  refine (proj1 (proj2 (reachable_chunk_consistent sampleEngine chunk
                          reachable_sampleEngine _))).
  vm_compute. right. left.
Defined.

(** X5: in every state of the index no two stored chunks have the same
    identifier, the key under which the store keeps a chunk. *)
Theorem reachable_chunk_ids_distinct e :
  reachable e → NoDup (chunk_id <$> chunks e).
Proof. intros Hreach. by apply (reachable_chunkInvariant e Hreach). Qed.

Lemma reachable_chunk_ids_distinct_witness :
  NoDup (chunk_id <$> chunks sampleEngine).
Proof. exact (reachable_chunk_ids_distinct sampleEngine reachable_sampleEngine). Defined.

(** ** Index: removing a document *)

Lemma engine_eta e :
  {| documents := documents e; chunks := chunks e;
     chunkSize := chunkSize e; chunkOverlap := chunkOverlap e |} = e.
Proof. by destruct e. Qed.

(** X6: [removeDocument] takes away the document and every chunk of it and
    nothing else, whatever the store answers: the other documents and
    their chunks, in their order, are as before. *)
Theorem removeDocument_effect e env docId :
  let e' := (removeDocument e env docId).1 in
  documents e' !! docId = None
  ∧ chunksOf e' docId = []
  ∧ (∀ other, other ≠ docId →
       documents e' !! other = documents e !! other
       ∧ chunksOf e' other = chunksOf e other)
  ∧ chunkSize e' = chunkSize e ∧ chunkOverlap e' = chunkOverlap e.
Proof.
  intros e'. subst e'. rewrite removeDocument_engine. unfold chunksOf. simpl.
  split; [apply lookup_delete_eq|]. split; [|split; [|done]].
  - rewrite list_filter_filter. apply filter_none, Forall_forall.
    intros chunk _ [Heq Hne]. done.
  - intros other Hne. split; [by apply lookup_delete_ne|].
    rewrite list_filter_filter. apply list_filter_iff.
    intros chunk. split; [by intros []|]. intros ->. done.
Qed.

(** X7: removing twice is removing once, and in a state of the index the
    removal of an identifier that is not stored changes nothing and
    succeeds when the store does. *)
Theorem removeDocument_idempotent :
  (∀ e env env' docId,
     (removeDocument (removeDocument e env docId).1 env' docId).1
     = (removeDocument e env docId).1)
  ∧ (∀ e env docId,
       reachable e → documents e !! docId = None →
       (removeDocument e env docId).1 = e)
  ∧ (∀ e docId,
       (removeDocument e {| env_deleteDocument := Resolved;
                            env_deleteChunksByDocId := Resolved |} docId).2
       = RemoveSuccess).
Proof.
  split; [|split; [|done]].
  - intros e env env' docId. rewrite !removeDocument_engine. simpl. f_equal.
    + apply delete_delete_eq.
    + rewrite list_filter_filter. apply list_filter_iff. intros chunk. tauto.
  - intros e env docId Hreach Hnone. rewrite removeDocument_engine.
    rewrite delete_id by done. rewrite filter_all; [apply engine_eta|].
    apply Forall_forall. intros chunk Hin Heq.
    destruct (proj2 (reachable_chunkInvariant e Hreach) chunk Hin)
      as (_ & _ & _ & doc & Hdoc & _).
    congruence.
Qed.

(** X8: adding a document and removing it again gives the index back as
    it was, whatever the store answered to either. *)
Theorem addDocument_removeDocument e env env' fileName content chatId :
  reachable e →
  documents e !! env_docId env = None →
  (removeDocument (addDocument e env fileName content chatId).1 env' (env_docId env)).1 = e.
Proof.
  intros Hreach Hfresh. rewrite removeDocument_engine, addDocument_engine. simpl.
  rewrite delete_insert_id by done.
  rewrite filter_app, filter_all, filter_none, app_nil_r; [apply engine_eta| |].
  - destruct (chunkDocument_numbered (chunkSize e) (chunkOverlap e) (env_clock env)
                (env_docId env) fileName content) as [_ Hown].
    eapply Forall_impl; [exact Hown|]. intros chunk Heq Hne. done.
  - apply Forall_forall. intros chunk Hin Heq.
    destruct (proj2 (reachable_chunkInvariant e Hreach) chunk Hin)
      as (_ & _ & _ & doc & Hdoc & _).
    congruence.
Qed.

Lemma addDocument_removeDocument_witness :
  (removeDocument
     (addDocument sampleEngine (sampleEnv "doc_4" (Rejected (js "QuotaExceededError")))
        (js "d.txt") (js "delta") (js "global")).1
     {| env_deleteDocument := Resolved; env_deleteChunksByDocId := Resolved |}
     (js "doc_4")).1
  = sampleEngine.
Proof.
  apply (addDocument_removeDocument sampleEngine
           (sampleEnv "doc_4" (Rejected (js "QuotaExceededError")))).
  - exact reachable_sampleEngine.
  - by vm_compute.
Defined.

(** ** Scorer and retrieval: which chunks can be returned *)

Lemma sumOver_nil_zero {A} (f : A → R) l :
  (∀ x, x ∈ l → f x = 0%R) → sumOver f l = 0%R.
Proof.
  induction l as [|x l IH]; intros Hall; [done|].
  rewrite sumOver_cons, (Hall x), IH by set_solver. lra.
Qed.

Lemma sumOver_positive {A} (f : A → R) l :
  (0 < sumOver f l)%R → ∃ x, x ∈ l ∧ (0 < f x)%R.
Proof.
  induction l as [|x l IH]; simpl; [lra|]. intros Hpos.
  destruct (Rlt_dec 0 (f x)) as [Hx|Hx].
  - exists x. split; [left|done].
  - destruct IH as (y & Hy & Hfy); [unfold sumOver in *; simpl in *; lra|].
    exists y. split; [by right|done].
Qed.

Lemma tf_nonneg token chunkTokens : (0 <= tf token chunkTokens)%R.
Proof.
  unfold tf. destruct chunkTokens as [|t l].
  - simpl. unfold Rdiv. rewrite Rinv_0. lra.
  - unfold Rdiv. apply Rmult_le_pos; [apply pos_INR|].
    left. apply Rinv_0_lt_compat, lt_0_INR. simpl. lia.
Qed.

Lemma docsWithTerm_positive corpus chunk token :
  chunk ∈ corpus → token ∈ chunk_tokens chunk → 1 ≤ docsWithTerm corpus token.
Proof.
  intros Hin Htok. unfold docsWithTerm.
  assert (Hf : chunk ∈ filter (λ c, token ∈ chunk_tokens c) corpus)
    by (by apply list_elem_of_filter).
  destruct (filter _ corpus); [by apply elem_of_nil in Hf|simpl; lia].
Qed.

(** A token weighs positively only if at most [N - 2] of the [N] chunks
    hold it. *)
Lemma idf_positive corpus token :
  (0 < idf corpus token)%R → docsWithTerm corpus token + 2 ≤ length corpus.
Proof.
  unfold idf. intros Hpos.
  destruct (le_lt_dec (docsWithTerm corpus token + 2) (length corpus)) as [|Hlt]; [done|].
  exfalso. set (df := docsWithTerm corpus token) in *.
  assert (Hle : (INR (length corpus) <= INR (df + 1))%R) by (apply le_INR; lia).
  assert (Hdf : (0 < INR (df + 1))%R) by (apply lt_0_INR; lia).
  destruct (length corpus) as [|n] eqn:Hlen.
  - simpl in Hpos. unfold Rdiv in Hpos. rewrite Rmult_0_l in Hpos.
    unfold ln in Hpos. destruct (Rlt_dec 0 0); lra.
  - assert (HN : (0 < INR (S n))%R) by (apply lt_0_INR; lia).
    assert (Hq : (INR (S n) / INR (df + 1) <= 1)%R).
    { apply (Rmult_le_reg_r (INR (df + 1))); [done|].
      unfold Rdiv. rewrite Rmult_assoc, Rinv_l by lra. lra. }
    assert (Hq0 : (0 < INR (S n) / INR (df + 1))%R) by (by apply Rdiv_lt_0_compat).
    destruct Hq as [Hq|Hq].
    + pose proof (ln_increasing _ _ Hq0 Hq) as Hln. rewrite ln_1 in Hln. lra.
    + rewrite Hq, ln_1 in Hpos. lra.
Qed.

(** A chunk of the corpus that scores above zero holds a query token that
    at most [N - 2] chunks hold. *)
Lemma score_positive corpus queryTokens chunk :
  chunk ∈ corpus →
  (0 < calculateRelevanceScore corpus queryTokens (chunk_tokens chunk))%R →
  ∃ token, token ∈ queryTokens ∧ token ∈ chunk_tokens chunk
           ∧ docsWithTerm corpus token + 2 ≤ length corpus.
Proof.
  intros Hin. unfold calculateRelevanceScore. case_decide as Hempty; [lra|].
  intros Hpos.
  assert (Hsqrt : (0 < sqrt (INR (length queryTokens)))%R).
  { apply sqrt_lt_R0, lt_0_INR. lia. }
  assert (Htotal : (0 < runningTotal corpus queryTokens (chunk_tokens chunk))%R).
  { set (total := runningTotal _ _ _) in *. set (root := sqrt _) in *.
    replace total with (total / root * root)%R by (field; lra).
    by apply Rmult_lt_0_compat. }
  rewrite runningTotal_sum in Htotal.
  apply sumOver_positive in Htotal as (token & Hq & Hc).
  unfold contribution in Hc. case_decide as Htok; [|lra].
  exists token. split; [done|]. split; [done|]. apply idf_positive.
  pose proof (tf_nonneg token (chunk_tokens chunk)). nra.
Qed.

Lemma sliceTo_subseteq {A} (k : Z) (l : list A) x : x ∈ sliceTo k l → x ∈ l.
Proof. unfold sliceTo. intros Hin. apply elem_of_take in Hin as (i & Hi & _).
  by apply list_elem_of_lookup_2 in Hi. Qed.

Lemma retrieve_elem_of e query topK result :
  result ∈ retrieveRelevantChunks e query topK →
  ∃ chunk,
    chunk ∈ chunks e
    ∧ result = toResult (chunk, calculateRelevanceScore (chunks e) (tokenize query)
                                  (chunk_tokens chunk))
    ∧ (0 < calculateRelevanceScore (chunks e) (tokenize query) (chunk_tokens chunk))%R.
Proof.
  unfold retrieveRelevantChunks. case_decide; [by intros ?%elem_of_nil|].
  intros Hin. apply list_elem_of_fmap in Hin as (item & -> & Hin).
  apply list_elem_of_filter in Hin as [Hpos Hin].
  apply sliceTo_subseteq in Hin. rewrite ranked_Permutation in Hin.
  unfold scoreChunks in Hin. apply list_elem_of_fmap in Hin as (chunk & -> & Hin).
  by exists chunk.
Qed.

(** X9: whatever [topK] is, negative included, a result is a stored chunk
    with its own score; the score is positive; the chunk shares with the
    query a token that at least two chunks of the index do not hold; and
    there are no more results than stored chunks. *)
Theorem retrieveRelevantChunks_sound e query topK :
  (∀ result, result ∈ retrieveRelevantChunks e query topK →
     ∃ chunk token,
       chunk ∈ chunks e
       ∧ result = toResult (chunk, calculateRelevanceScore (chunks e) (tokenize query)
                                     (chunk_tokens chunk))
       ∧ (0 < score result)%R
       ∧ token ∈ tokenize query ∧ token ∈ chunk_tokens chunk
       ∧ docsWithTerm (chunks e) token + 2 ≤ length (chunks e))
  ∧ length (retrieveRelevantChunks e query topK) ≤ length (chunks e).
Proof.
  split.
  - intros result Hin. apply retrieve_elem_of in Hin as (chunk & Hin & -> & Hpos).
    destruct (score_positive _ _ _ Hin Hpos) as (token & Hq & Hc & Hrare).
    by exists chunk, token.
  - unfold retrieveRelevantChunks. case_decide; [simpl; lia|].
    rewrite length_fmap. etrans; [apply length_filter|].
    unfold sliceTo. rewrite length_take.
    etrans; [apply Nat.le_min_r|].
    rewrite ranked_Permutation. unfold scoreChunks. by rewrite length_fmap.
Qed.

Lemma retrieve_small_index e query topK :
  length (chunks e) ≤ 2 → retrieveRelevantChunks e query topK = [].
Proof.
  intros Hsmall.
  destruct (retrieveRelevantChunks e query topK) as [|result rest] eqn:Hres; [done|].
  assert (Hin : result ∈ retrieveRelevantChunks e query topK) by (rewrite Hres; left).
  apply retrieve_elem_of in Hin as (chunk & Hin & _ & Hpos).
  destruct (score_positive _ _ _ Hin Hpos) as (token & _ & Hc & Hrare).
  pose proof (docsWithTerm_positive _ _ _ Hin Hc). lia.
Qed.

Lemma retrieve_no_token e query topK :
  tokenize query = [] → retrieveRelevantChunks e query topK = [].
Proof.
  intros Hq.
  destruct (retrieveRelevantChunks e query topK) as [|result rest] eqn:Hres; [done|].
  assert (Hin : result ∈ retrieveRelevantChunks e query topK) by (rewrite Hres; left).
  apply retrieve_elem_of in Hin as (chunk & Hin & _ & Hpos).
  destruct (score_positive _ _ _ Hin Hpos) as (token & Htok & _).
  rewrite Hq in Htok. by apply elem_of_nil in Htok.
Qed.

(** X10: an index of one or two chunks answers no query: a token of a
    stored chunk is then in at least [N - 1] chunks and cannot weigh
    positively. *)
Theorem retrieveRelevantChunks_small_index e query topK :
  length (chunks e) ≤ 2 → retrieveRelevantChunks e query topK = [].
Proof. apply retrieve_small_index. Qed.

Lemma retrieveRelevantChunks_small_index_witness :
  retrieveRelevantChunks
    (addDocument newEngine (sampleEnv "doc_1" Resolved)
       (js "doc1") (js "alpha beta gamma" ++ [LF] ++ js "alpha delta") (js "global")).1
    (js "alpha") 3
  = [].
Proof. apply retrieveRelevantChunks_small_index. vm_compute. lia. Defined.

(** X11: a query and a chunk without a common token score 0; so do an
    empty query and a chunk without tokens. *)
Theorem calculateRelevanceScore_disjoint corpus queryTokens chunkTokens :
  (∀ token, token ∈ queryTokens → token ∉ chunkTokens) →
  calculateRelevanceScore corpus queryTokens chunkTokens = 0%R.
Proof.
  intros Hdisjoint. unfold calculateRelevanceScore. case_decide; [done|].
  rewrite runningTotal_sum, sumOver_nil_zero; [unfold Rdiv; lra|].
  intros token Hq. unfold contribution. by rewrite decide_False by by apply Hdisjoint.
Qed.

Lemma calculateRelevanceScore_disjoint_witness :
  calculateRelevanceScore (chunks sampleEngine) [js "delta"] [js "alpha"] = 0%R.
Proof.
  apply calculateRelevanceScore_disjoint. intros token Hq Hc.
  apply list_elem_of_singleton in Hq, Hc. subst. discriminate.
Defined.

(** X12: a query without token (empty, or of stop words, short words and
    punctuation only) has no result, and neither has any query with
    [topK] 0. *)
Theorem retrieveRelevantChunks_nothing :
  (∀ e query topK, tokenize query = [] → retrieveRelevantChunks e query topK = [])
  ∧ (∀ e query, retrieveRelevantChunks e query 0 = [])
  ∧ (∀ e topK, retrieveRelevantChunks e (js "Is it on, or to be?") topK = []).
Proof.
  split; [intros e query topK; apply retrieve_no_token|]. split.
  - intros e query. unfold retrieveRelevantChunks. case_decide; [done|].
    unfold sliceTo. by replace (sliceIndex _ 0) with 0 by (unfold sliceIndex; simpl; lia).
  - intros e topK. apply retrieve_no_token. by vm_compute.
Qed.

(** ** Index: loading, clearing and searching *)

Section LoadDocuments.
Let put (docs : gmap jsstring Document) (doc : Document) := <[doc_id doc := doc]> docs.

Lemma load_lookup_other cached : ∀ docs docId,
  docId ∉ doc_id <$> cached → fold_left put cached docs !! docId = docs !! docId.
Proof.
  induction cached as [|doc cached IH]; intros docs docId Hnot; simpl; [done|].
  rewrite fmap_cons in Hnot. apply not_elem_of_cons in Hnot as [Hne Hnot].
  rewrite IH by done. unfold put. by rewrite lookup_insert_ne.
Qed.

Lemma load_lookup_cached cached : ∀ docs doc,
  NoDup (doc_id <$> cached) → doc ∈ cached →
  fold_left put cached docs !! doc_id doc = Some doc.
Proof.
  induction cached as [|first cached IH]; intros docs doc Hnd Hin; simpl.
  - by apply elem_of_nil in Hin.
  - rewrite fmap_cons in Hnd. apply NoDup_cons in Hnd as [Hfirst Hnd].
    apply elem_of_cons in Hin as [->|Hin]; [|by apply IH].
    rewrite load_lookup_other by done. unfold put. apply lookup_insert_eq.
Qed.

Lemma load_size cached : ∀ docs,
  NoDup (doc_id <$> cached) →
  (∀ doc, doc ∈ cached → docs !! doc_id doc = None) →
  size (fold_left put cached docs) = size docs + length cached.
Proof.
  induction cached as [|first cached IH]; intros docs Hnd Hfresh; simpl; [lia|].
  rewrite fmap_cons in Hnd. apply NoDup_cons in Hnd as [Hfirst Hnd].
  rewrite IH; [|done|].
  - unfold put. rewrite map_size_insert_None; [lia|]. apply Hfresh. left.
  - intros doc Hin. unfold put. rewrite lookup_insert_ne; [apply Hfresh; by right|].
    intros Heq. apply Hfirst. rewrite Heq. by apply list_elem_of_fmap_2.
Qed.
End LoadDocuments.

(** X13: [loadFromCache] touches the engine only when both reads have
    succeeded; a rejected read leaves it as it was and gives a failure
    result. When they succeed, the chunk array is the cached one, a
    document that is not among the cached ones stays, and cached documents
    of distinct identifiers are all found, each under its identifier; on
    an engine without documents their number is the document count. *)
Theorem loadFromCache_effect :
  (∀ e env message,
     env_getAllDocuments env = ReadRejected message
     ∨ (∃ docs, env_getAllDocuments env = Fetched docs
                ∧ env_getAllChunks env = ReadRejected message) →
     loadFromCache e env = (e, LoadFailure message))
  ∧ (∀ e cachedDocs cachedChunks,
       let load := loadFromCache e {| env_getAllDocuments := Fetched cachedDocs;
                                      env_getAllChunks := Fetched cachedChunks |} in
       chunks load.1 = cachedChunks
       ∧ load.2 = LoadSuccess (size (documents load.1)) (length cachedChunks)
       ∧ (∀ docId, docId ∉ doc_id <$> cachedDocs →
            documents load.1 !! docId = documents e !! docId)
       ∧ (NoDup (doc_id <$> cachedDocs) →
            (∀ doc, doc ∈ cachedDocs → documents load.1 !! doc_id doc = Some doc)
            ∧ (documents e = ∅ → size (documents load.1) = length cachedDocs))).
Proof.
  split.
  - intros e env message [Hdocs|(docs & Hdocs & Hchunks)]; unfold loadFromCache.
    + by rewrite Hdocs.
    + by rewrite Hdocs, Hchunks.
  - intros e cachedDocs cachedChunks load. subst load. unfold loadFromCache. simpl.
    split; [done|]. split; [done|]. split; [|intros Hnd; split].
    + intros docId Hnot. by apply load_lookup_other.
    + intros doc Hin. by apply load_lookup_cached.
    + intros Hempty. rewrite load_size, Hempty; [by rewrite map_size_empty|done|].
      intros doc _. rewrite Hempty. apply lookup_empty.
Qed.

(** X14: [clearAll] empties the engine before it asks the store, so that
    when the store rejects and the rejection is thrown the engine is empty
    all the same: the statistics are 0, no query has a result, the
    chunking configuration is kept. It completes only if both store
    requests resolve. *)
Theorem clearAll_effect e env :
  let e' := (clearAll e env).1 in
  documents e' = ∅ ∧ chunks e' = []
  ∧ chunkSize e' = chunkSize e ∧ chunkOverlap e' = chunkOverlap e
  ∧ getStats e'
    = [ ("documentCount"%string, 0); ("chunkCount"%string, 0); ("totalSize"%string, 0) ]
  ∧ (∀ query topK, retrieveRelevantChunks e' query topK = [])
  ∧ ((clearAll e env).2 = ClearDone
     ↔ env_clearAllDocuments env = Resolved ∧ env_clearAllChunks env = Resolved).
Proof.
  assert (Hstate : (clearAll e env).1
                   = {| documents := ∅; chunks := [];
                        chunkSize := chunkSize e; chunkOverlap := chunkOverlap e |}).
  { unfold clearAll. by destruct (env_clearAllDocuments env), (env_clearAllChunks env). }
  intros e'. subst e'. rewrite Hstate. simpl.
  do 4 (split; [done|]). split; [|split].
  - unfold getStats, totalContentLength. simpl.
    by rewrite map_size_empty, map_fold_empty.
  - done.
  - unfold clearAll.
    destruct (env_clearAllDocuments env), (env_clearAllChunks env); simpl;
      split; try done; intros []; done.
Qed.

Lemma startsWith_spec prefix : ∀ s,
  startsWith s prefix = true ↔ ∃ rest, s = prefix ++ rest.
Proof.
  induction prefix as [|p prefix IH]; intros s; simpl.
  - split; [intros _; by exists s|done].
  - destruct s as [|c s]; [split; [done|by intros [rest ?]]|].
    rewrite andb_true_iff, IH. split.
    + intros [Hc [rest ->]]. apply Ascii.eqb_eq in Hc as ->. by exists rest.
    + intros [rest [= -> ->]]. split; [apply Ascii.eqb_refl|by exists rest].
Qed.

(** [includes] is true exactly of the texts that hold the searched one. *)
Lemma includes_spec searchString s :
  includes s searchString = true ↔ ∃ before after, s = before ++ searchString ++ after.
Proof.
  induction s as [|c s IH]; simpl.
  - rewrite orb_false_r, startsWith_spec. split.
    + intros [rest Hs]. by exists [], rest.
    + intros (before & after & Hs). symmetry in Hs.
      apply app_eq_nil in Hs as [-> Hs]. by exists after.
  - rewrite orb_true_iff, startsWith_spec, IH. split.
    + intros [[rest ->]|(before & after & ->)].
      * by exists [], rest.
      * by exists (c :: before), after.
    + intros ([|b before] & after & Hs); simpl in Hs.
      * left. by exists after.
      * injection Hs as -> ->. right. by exists before, after.
Qed.

Lemma lowerChar_idemp c : lowerChar (lowerChar c) = lowerChar c.
Proof. each_char c. Qed.

Lemma toLowerCase_idemp s : toLowerCase (toLowerCase s) = toLowerCase s.
Proof.
  unfold toLowerCase. rewrite <-list_fmap_compose.
  apply list_fmap_ext. intros i c _. apply lowerChar_idemp.
Qed.

(** X15: [searchDocuments] finds the stored documents whose name holds the
    searched text when the case of both is set aside: no other, and each
    of them. So the empty text finds every document, and a document is
    found by its own name in any case. *)
Theorem searchDocuments_spec e searchTerm :
  (∀ doc, doc ∈ searchDocuments e searchTerm
          ↔ (∃ docId, documents e !! docId = Some doc)
            ∧ ∃ before after,
                toLowerCase (doc_name doc) = before ++ toLowerCase searchTerm ++ after)
  ∧ searchDocuments e [] = getAllDocuments e
  ∧ searchDocuments e (toLowerCase searchTerm) = searchDocuments e searchTerm
  ∧ (∀ docId doc, documents e !! docId = Some doc →
       toLowerCase searchTerm = toLowerCase (doc_name doc) →
       doc ∈ searchDocuments e searchTerm).
Proof.
  assert (Hall : ∀ doc, doc ∈ getAllDocuments e ↔ ∃ docId, documents e !! docId = Some doc).
  { intros doc. unfold getAllDocuments. rewrite list_elem_of_fmap. split.
    - intros ([docId doc'] & -> & Hin). exists docId. by apply elem_of_map_to_list.
    - intros [docId Hdoc]. exists (docId, doc). split; [done|].
      by apply elem_of_map_to_list. }
  assert (Hspec : ∀ doc, doc ∈ searchDocuments e searchTerm
            ↔ (∃ docId, documents e !! docId = Some doc)
              ∧ ∃ before after,
                  toLowerCase (doc_name doc) = before ++ toLowerCase searchTerm ++ after).
  { intros doc. unfold searchDocuments. rewrite list_elem_of_filter, Hall.
    rewrite <-includes_spec. split; intros [Hinc Hdoc]; split; try done.
    - by apply Is_true_true.
    - by apply Is_true_true. }
  split; [done|]. split; [|split].
  - unfold searchDocuments. apply filter_all, Forall_forall. intros doc _.
    apply Is_true_true, includes_spec. by exists [], (toLowerCase (doc_name doc)).
  - unfold searchDocuments. by rewrite toLowerCase_idemp.
  - intros docId doc Hdoc Hname. apply Hspec. split; [by exists docId|].
    exists [], []. by rewrite Hname, app_nil_r.
Qed.

(** ** Generation client: history and prompt *)

Lemma truncateHistory_drop (conversationHistory : list Message) (maxMessages : Z) :
  (1 ≤ maxMessages)%Z →
  truncateHistory conversationHistory maxMessages
  = drop (length conversationHistory - Z.to_nat maxMessages) conversationHistory.
Proof.
  intros Hmax. unfold truncateHistory, sliceFrom, sliceIndex.
  destruct (Z.leb_spec (Z.of_nat (length conversationHistory)) maxMessages) as [Hle|Hlt].
  - replace (length conversationHistory - Z.to_nat maxMessages) with 0 by lia.
    by rewrite drop_0.
  - destruct (Z.ltb_spec (- maxMessages) 0); [|lia].
    f_equal. lia.
Qed.

(** X16: with a limit of at least 1, [truncateHistory] keeps the last
    [maxMessages] messages, all of them if there are fewer: never more than
    the limit. *)
Theorem truncateHistory_last (conversationHistory : list Message) (maxMessages : Z) :
  (1 ≤ maxMessages)%Z →
  truncateHistory conversationHistory maxMessages
  = drop (length conversationHistory - Z.to_nat maxMessages) conversationHistory
  ∧ length (truncateHistory conversationHistory maxMessages)
    = min (length conversationHistory) (Z.to_nat maxMessages).
Proof.
  intros Hmax. rewrite truncateHistory_drop by done.
  split; [done|]. rewrite length_drop. lia.
Qed.

Lemma truncateHistory_last_witness :
  let m (text : string) := {| msg_role := js "user"; msg_content := js text |} in
  truncateHistory [m "one"; m "two"; m "three"] 2 = [m "two"; m "three"].
Proof.
  intros m.
  refine (proj1 (truncateHistory_last [m "one"; m "two"; m "three"] 2 _)). lia.
Defined.

(** X17: a limit of 0 truncates nothing, since [slice(-0)] is the whole
    array, and a negative limit [-n] drops the first [n] messages instead
    of keeping the last ones. *)
Theorem truncateHistory_no_limit (conversationHistory : list Message) :
  truncateHistory conversationHistory 0 = conversationHistory
  ∧ ∀ n, (0 < n)%Z →
      truncateHistory conversationHistory (- n) = drop (Z.to_nat n) conversationHistory.
Proof.
  unfold truncateHistory, sliceFrom, sliceIndex. split.
  - destruct (Z.leb_spec (Z.of_nat (length conversationHistory)) 0); [done|].
    change (- 0 <? 0)%Z with false. by replace (Z.to_nat _) with 0 by lia.
  - intros n Hn.
    destruct (Z.leb_spec (Z.of_nat (length conversationHistory)) (- n)); [lia|].
    destruct (Z.ltb_spec (- - n) 0); [lia|].
    destruct (Z.min_spec (- - n) (Z.of_nat (length conversationHistory)))
      as [[_ ->]|[Hle ->]].
    + f_equal. lia.
    + rewrite Nat2Z.id. by rewrite !drop_ge by lia.
Qed.

(** X18: [prepareContents] gives one entry per message of the history, in
    order and with its text, then the prompt as the last entry, of role
    "user"; every role is "user" or "model", and "user" exactly for the
    messages of role "user". *)
Theorem prepareContents_shape conversationHistory currentPrompt :
  let contents := prepareContents conversationHistory currentPrompt in
  length contents = S (length conversationHistory)
  ∧ last contents = Some {| content_role := js "user"; content_parts := [currentPrompt] |}
  ∧ content_parts <$> contents
    = ((λ msg, [msg_content msg]) <$> conversationHistory) ++ [[currentPrompt]]
  ∧ (∀ entry, entry ∈ contents →
       content_role entry = js "user" ∨ content_role entry = js "model")
  ∧ (∀ i msg entry,
       conversationHistory !! i = Some msg → contents !! i = Some entry →
       (content_role entry = js "user" ↔ msg_role msg = js "user")).
Proof.
  unfold prepareContents. simpl. split; [|split; [|split; [|split]]].
  - rewrite length_app, length_fmap. simpl. lia.
  - by rewrite last_snoc.
  - rewrite fmap_app, <-list_fmap_compose. done.
  - intros entry Hin. apply elem_of_app in Hin as [Hin|Hin].
    + apply list_elem_of_fmap in Hin as (msg & -> & _). simpl. case_decide; auto.
    + apply list_elem_of_singleton in Hin as ->. by left.
  - intros i msg entry Hmsg Hentry.
    rewrite lookup_app_l in Hentry
      by (rewrite length_fmap; by apply lookup_lt_Some in Hmsg).
    rewrite list_lookup_fmap, Hmsg in Hentry. injection Hentry as <-. simpl.
    case_decide; split; try done; intros Heq; by vm_compute in Heq.
Qed.

Lemma join_elem_of sep parts part :
  part ∈ parts → ∃ before after, join sep parts = before ++ part ++ after.
Proof.
  induction parts as [|p parts IH]; intros Hin; [by apply elem_of_nil in Hin|].
  apply elem_of_cons in Hin as [->|Hin].
  - destruct parts; [exists [], []; simpl; by rewrite app_nil_r|].
    by exists [], (sep ++ join sep (l :: parts)).
  - destruct (IH Hin) as (before & after & Heq).
    destruct parts as [|q parts]; [by apply elem_of_nil in Hin|].
    exists (p ++ sep ++ before), after.
    change (join sep (p :: q :: parts)) with (p ++ sep ++ join sep (q :: parts)).
    by rewrite Heq, <-!app_assoc.
Qed.

(** X19: without chunk the prompt is the user's message and nothing else;
    with chunks it opens with the fixed instruction and holds the message
    and, for every chunk, the chunk's content preceded by its number (from
    1, in the order of the results) and its document name. *)
Theorem buildRAGPrompt_contents userMessage relevantChunks :
  (relevantChunks = [] → buildRAGPrompt userMessage relevantChunks = userMessage)
  ∧ (relevantChunks ≠ [] →
     (∃ after, buildRAGPrompt userMessage relevantChunks = promptHead ++ after)
     ∧ includes (buildRAGPrompt userMessage relevantChunks) userMessage = true
     ∧ ∀ i chunk, relevantChunks !! i = Some chunk →
         includes (buildRAGPrompt userMessage relevantChunks)
           (js "[Document " ++ decimal (i + 1) ++ js ": " ++ docName chunk ++ js "]"
            ++ [LF] ++ content chunk) = true).
Proof.
  split; [by intros ->|].
  intros Hne. unfold buildRAGPrompt.
  rewrite decide_False by (by destruct relevantChunks).
  generalize promptHead promptMiddle promptTail. intros head middle tail.
  set (context := join _ _).
  split; [by exists (context ++ middle ++ userMessage ++ tail)|]. split.
  - apply includes_spec. exists (head ++ context ++ middle), tail.
    by rewrite <-!app_assoc.
  - intros i chunk Hi. apply includes_spec.
    destruct (join_elem_of ([LF; LF] ++ js "---" ++ [LF; LF])
                (imap contextPart relevantChunks) (contextPart i chunk))
      as (before & after & Heq).
    { apply list_elem_of_lookup. exists i. by rewrite list_lookup_imap, Hi. }
    subst context. rewrite Heq. clear Heq.
    change (js "[Document " ++ decimal (i + 1) ++ js ": " ++ docName chunk ++ js "]"
            ++ [LF] ++ content chunk) with (contextPart i chunk).
    generalize (contextPart i chunk). intros part.
    exists (head ++ before), (after ++ middle ++ userMessage ++ tail).
    by rewrite <-!app_assoc.
Qed.

Lemma buildRAGPrompt_contents_witness :
  buildRAGPrompt (js "What is alpha?") [] = js "What is alpha?".
Proof. exact (proj1 (buildRAGPrompt_contents (js "What is alpha?") []) eq_refl). Defined.

(** ** What a message sent by the user becomes *)

Lemma sliceTo_drop_last {A} (l : list A) x : sliceTo (-1) (l ++ [x]) = l.
Proof.
  unfold sliceTo, sliceIndex. rewrite length_app. simpl.
  replace (Z.to_nat _) with (length l) by lia.
  by rewrite take_app_length.
Qed.

(** X20: the request made for a message ends with the prompt, of role
    "user", after the earlier messages of the conversation (the message
    itself is not repeated among them): the last [maxContext] of them when
    the limit is 1 or more, so that the request has at most
    [maxContext + 1] entries. While the index holds no more than two
    chunks, or when the message has no token, the prompt is the bare
    message: nothing of the documents is sent. *)
Theorem handleSendMessage_request app conversationHistory maxContext message :
  let contents := handleSendMessage_contents app conversationHistory maxContext message in
  let prompt := buildRAGPrompt message (handleSendMessage_relevantChunks app message) in
  contents = prepareContents (truncateHistory conversationHistory maxContext) prompt
  ∧ last contents = Some {| content_role := js "user"; content_parts := [prompt] |}
  ∧ ((1 ≤ maxContext)%Z →
       contents
       = prepareContents
           (drop (length conversationHistory - Z.to_nat maxContext) conversationHistory)
           prompt
       ∧ length contents ≤ Z.to_nat maxContext + 1)
  ∧ (length (chunks (ragEngine app)) ≤ 2 ∨ tokenize message = [] → prompt = message).
Proof.
  intros contents prompt. subst contents prompt.
  unfold handleSendMessage_contents, generateResponse_contents.
  rewrite sliceTo_drop_last.
  split; [done|]. split; [|split].
  - unfold prepareContents. by rewrite last_snoc.
  - intros Hmax. rewrite truncateHistory_drop by done. split; [done|].
    unfold prepareContents. rewrite length_app, length_fmap, length_drop. simpl. lia.
  - intros Hnone. unfold handleSendMessage_relevantChunks.
    destruct Hnone as [Hsmall|Hq].
    + by rewrite retrieve_small_index.
    + by rewrite retrieve_no_token.
Qed.

(** ** Token estimate *)

#[local] Arguments estimateTokens : simpl never.

Lemma estimateTokens_bounds text :
  length text ≤ 4 * estimateTokens text ∧ 4 * estimateTokens text ≤ length text + 3.
Proof.
  unfold estimateTokens.
  pose proof (Nat.div_mod_eq (length text + 3) 4) as Hdiv.
  pose proof (Nat.mod_upper_bound (length text + 3) 4). lia.
Qed.

Lemma fold_estimate {A} (f : A → jsstring) l : ∀ total,
  fold_left (λ total x, total + estimateTokens (f x)) l total
  = total + sum_list_with (λ x, estimateTokens (f x)) l.
Proof.
  induction l as [|x l IH]; intros total; simpl; [lia|]. rewrite IH. lia.
Qed.

Lemma sum_estimate_bounds {A} (f : A → jsstring) l :
  sum_list_with (λ x, length (f x)) l ≤ 4 * sum_list_with (λ x, estimateTokens (f x)) l
  ∧ 4 * sum_list_with (λ x, estimateTokens (f x)) l
    ≤ sum_list_with (λ x, length (f x)) l + 3 * length l.
Proof.
  induction l as [|x l [IH1 IH2]]; simpl; [lia|].
  pose proof (estimateTokens_bounds (f x)). lia.
Qed.

(** X21: the token estimate of a text is its length divided by 4 and
    rounded up, and [checkTokenLimit] adds the estimates of the messages
    and of the chunks: four times the total is at least the number of
    characters and exceeds it by at most 3 per text; the context is within
    the limit exactly when the total is strictly below it. *)
Theorem checkTokenLimit_bounds conversationHistory relevantChunks limit :
  let check := checkTokenLimit conversationHistory relevantChunks limit in
  let characters :=
    sum_list_with (λ msg, length (msg_content msg)) conversationHistory
    + sum_list_with (λ chunk, length (content chunk)) relevantChunks in
  estimatedTokens check
  = sum_list_with (λ msg, estimateTokens (msg_content msg)) conversationHistory
    + sum_list_with (λ chunk, estimateTokens (content chunk)) relevantChunks
  ∧ characters ≤ 4 * estimatedTokens check
  ∧ 4 * estimatedTokens check
    ≤ characters + 3 * (length conversationHistory + length relevantChunks)
  ∧ (withinLimit check = true ↔ (Z.of_nat (estimatedTokens check) < limit)%Z)
  ∧ (∀ text, estimateTokens text = 0 ↔ text = []).
Proof.
  intros check characters. subst check characters. unfold checkTokenLimit. simpl.
  rewrite (fold_estimate content), (fold_estimate msg_content). simpl.
  pose proof (sum_estimate_bounds msg_content conversationHistory).
  pose proof (sum_estimate_bounds content relevantChunks).
  split; [done|]. split; [lia|]. split; [lia|]. split; [apply Z.ltb_lt|].
  intros text. pose proof (estimateTokens_bounds text). split.
  - intros Hzero. destruct text; [done|]. simpl in *. lia.
  - by intros ->.
Qed.

(** ** Chat history *)

(** Case analysis on the comparisons of the goal, dropping the cases that
    arithmetic excludes. *)
Ltac cases_ltb :=
  repeat match goal with
         | |- context [(?a <? ?b)%Z] => destruct (Z.ltb_spec a b); try lia
         end.

(** X22: [formatTimeAgo] reads "Just now" below one minute, and for a time
    that is still to come; then whole minutes from 1 to 59, whole hours
    from 1 to 23, whole days from 1 to 6; from one week on, the date. *)
Theorem formatTimeAgo_units now timestamp localeDate :
  let seconds := ((now - timestamp) / 1000)%Z in
  let shown := formatTimeAgo now timestamp localeDate in
  ((now < timestamp + 60000)%Z → shown = js "Just now")
  ∧ ((60 ≤ seconds < 3600)%Z →
       ∃ n, 1 ≤ n ≤ 59 ∧ Z.of_nat n = (seconds / 60)%Z ∧ shown = decimal n ++ js "m ago")
  ∧ ((3600 ≤ seconds < 86400)%Z →
       ∃ n, 1 ≤ n ≤ 23 ∧ Z.of_nat n = (seconds / 3600)%Z ∧ shown = decimal n ++ js "h ago")
  ∧ ((86400 ≤ seconds < 604800)%Z →
       ∃ n, 1 ≤ n ≤ 6 ∧ Z.of_nat n = (seconds / 86400)%Z ∧ shown = decimal n ++ js "d ago")
  ∧ ((604800 ≤ seconds)%Z → shown = localeDate).
Proof.
  intros seconds shown. subst shown. unfold formatTimeAgo. fold seconds.
  assert (Hunit : ∀ unit bound : Z, (0 < unit)%Z →
            (unit ≤ seconds < unit * bound)%Z →
            (1 ≤ seconds / unit < bound)%Z).
  { intros unit bound Hunit [Hlow Hhigh]. split.
    - apply Z.div_le_lower_bound; lia.
    - apply Z.div_lt_upper_bound; lia. }
  split; [|split; [|split; [|split]]].
  - intros Hsoon.
    assert (seconds < 60)%Z by (apply Z.div_lt_upper_bound; lia).
    by cases_ltb.
  - intros Hs. destruct (Hunit 60 60)%Z; [lia..|]. cases_ltb.
    exists (Z.to_nat (seconds / 60)). split; [lia|]. split; [lia|done].
  - intros Hs. destruct (Hunit 3600 24)%Z; [lia..|]. cases_ltb.
    exists (Z.to_nat (seconds / 3600)). split; [lia|]. split; [lia|done].
  - intros Hs. destruct (Hunit 86400 7)%Z; [lia..|]. cases_ltb.
    exists (Z.to_nat (seconds / 86400)). split; [lia|]. split; [lia|done].
  - intros Hs. by cases_ltb.
Qed.

Lemma find_user_split (conversationHistory : list Message) :
  match List.find (λ msg, bool_decide (msg_role msg = js "user")) conversationHistory with
  | Some msg =>
      ∃ before after,
        conversationHistory = before ++ msg :: after
        ∧ msg_role msg = js "user"
        ∧ Forall (λ earlier, msg_role earlier ≠ js "user") before
  | None => Forall (λ msg, msg_role msg ≠ js "user") conversationHistory
  end.
Proof.
  induction conversationHistory as [|msg l IH]; cbn [List.find]; [done|].
  destruct (decide (msg_role msg = js "user")) as [Huser|Hother].
  - rewrite bool_decide_eq_true_2 by done. by exists [], l.
  - rewrite bool_decide_eq_false_2 by done.
    destruct (List.find _ l) as [found|].
    + destruct IH as (before & after & -> & Huser & Hbefore).
      exists (msg :: before), after. split; [done|]. split; [done|]. by constructor.
    + by constructor.
Qed.

(** X23: the title of a conversation is the first 50 characters of its
    first message of role "user", followed by "..." when the message is
    longer, and "Untitled Chat" when there is no such message: it is never
    longer than 53 characters. *)
Theorem chatTitle_spec conversationHistory :
  length (chatTitle conversationHistory) ≤ 53
  ∧ (∀ before msg after,
       conversationHistory = before ++ msg :: after →
       msg_role msg = js "user" →
       Forall (λ earlier, msg_role earlier ≠ js "user") before →
       chatTitle conversationHistory
       = if decide (length (msg_content msg) ≤ 50) then msg_content msg
         else take 50 (msg_content msg) ++ js "...")
  ∧ (Forall (λ msg, msg_role msg ≠ js "user") conversationHistory →
     chatTitle conversationHistory = js "Untitled Chat").
Proof.
  pose proof (find_user_split conversationHistory) as Hfind.
  unfold chatTitle. split; [|split].
  - destruct (List.find _ _) as [msg|]; [|simpl; lia].
    rewrite length_app, length_take.
    destruct (50 <? _); [change (length (js "...")) with 3|change (length []) with 0]; lia.
  - intros before msg after -> Huser Hbefore.
    destruct (List.find _ _) as [found|].
    + destruct Hfind as (before' & after' & Heq & Huser' & Hbefore').
      assert (found = msg) as ->.
      { revert before' Heq Hbefore'. induction Hbefore as [|x before Hx _ IH];
          intros before' Heq Hbefore'.
        - destruct Hbefore' as [|y before' Hy _]; simpl in Heq; [congruence|].
          injection Heq as -> _. done.
        - destruct Hbefore' as [|y before' Hy Hbefore']; simpl in Heq.
          + injection Heq as -> _. done.
          + injection Heq as -> Heq. by apply (IH before'). }
      case_decide as Hlen.
      * destruct (Nat.ltb_spec 50 (length (msg_content msg))); [lia|].
        by rewrite take_ge, app_nil_r by lia.
      * by destruct (Nat.ltb_spec 50 (length (msg_content msg))); [|lia].
    + rewrite Forall_app, Forall_cons in Hfind. by destruct Hfind as (_ & ? & _).
  - intros Hnone. destruct (List.find _ _) as [found|]; [|done].
    destruct Hfind as (before & after & -> & Huser & _).
    rewrite Forall_app, Forall_cons in Hnone. by destruct Hnone as (_ & ? & _).
Qed.

(** ** Cache manager: what [localStorage] keeps *)

(** X24: a saved API key is read back as it was saved, until it is removed
    or replaced, and saving the theme or a failed save does not touch it;
    the theme read is the one saved, and "light" when none or the empty
    string was saved or the storage cannot be used: it is never empty. *)
Theorem localStorage_round_trip env items value :
  let saved := saveApiKey env items value in
  (saved.2 = true → getApiKey env saved.1 = Some value)
  ∧ (saved.2 = false → saved.1 = items)
  ∧ (∀ theme, getApiKey env (saveTheme env saved.1 theme).1 = getApiKey env saved.1)
  ∧ getApiKey env (removeApiKey env saved.1).1 = None
  ∧ (∀ c theme, (saveTheme env items (c :: theme)).2 = true →
       getTheme env (saveTheme env items (c :: theme)).1 = c :: theme)
  ∧ ((saveTheme env items []).2 = true →
       getTheme env (saveTheme env items []).1 = js "light")
  ∧ (items !! KEY_THEME = None → getTheme env items = js "light")
  ∧ getTheme env items ≠ [].
Proof.
  unfold saveApiKey, saveTheme, saveItem, getApiKey, removeApiKey, getTheme.
  destruct (storageDenied env), (quotaExceeded env); simpl;
    repeat split; try done; intros;
    rewrite ?lookup_insert_eq, ?lookup_delete_eq; try done.
  all: rewrite ?lookup_insert_ne by done; try done.
  all: try (by destruct (items !! KEY_THEME) as [[|]|]).
  apply lookup_insert_eq.
Qed.

(** X25: when clearing the cache goes through, [localStorage] holds the
    API key that was stored, if it was not empty, and nothing else: the
    theme is back to "light". When one of the object stores cannot be
    cleared, or the storage cannot be used, [localStorage] is left as it
    was and the result is [false]. *)
Theorem clearAllCache_effect env items :
  let cleared := clearAllCache env items in
  let storage := env_storage env in
  (cleared.2 = true →
     env_clearDocuments env = Resolved ∧ env_clearChunks env = Resolved
     ∧ env_clearConversations env = Resolved ∧ storageDenied storage = false)
  ∧ (cleared.2 = false → cleared.1 = items)
  ∧ (cleared.2 = true →
       getTheme storage cleared.1 = js "light"
       ∧ (∀ key, key ≠ KEY_API_KEY → cleared.1 !! key = None)
       ∧ (quotaExceeded storage = false →
            ∀ c key, getApiKey storage items = Some (c :: key) →
              getApiKey storage cleared.1 = Some (c :: key)))
  ∧ (cleared.2 = true → getApiKey storage items = Some [] →
       getApiKey storage cleared.1 = None).
Proof.
  intros cleared storage. subst cleared storage. unfold clearAllCache.
  destruct (env_clearDocuments env), (env_clearChunks env), (env_clearConversations env);
    simpl; try (split; [done|]; split; [done|]; split; done).
  unfold getApiKey, getTheme, saveApiKey, saveItem.
  destruct (storageDenied (env_storage env)); simpl.
  { split; [done|]. split; [done|]. split; done. }
  assert (Hempty : ∀ key, (∅ : gmap string jsstring) !! key = None)
    by (intros; apply lookup_empty).
  destruct (items !! KEY_API_KEY) as [[|c key]|] eqn:Hkey; simpl.
  - split; [done|]. split; [done|]. split; [|done].
    intros _. rewrite !Hempty. split; [done|]. split; [done|]. by intros _ c key.
  - destruct (quotaExceeded (env_storage env)); simpl.
    + split; [done|]. split; [done|]. split; [|done].
      intros _. rewrite !Hempty. split; [done|]. split; [done|]. done.
    + split; [done|]. split; [done|]. split; [|done].
      intros _. rewrite lookup_insert_ne, Hempty by done. split; [done|]. split.
      * intros other Hother. by rewrite lookup_insert_ne.
      * intros _ c' key' [= -> ->]. apply lookup_insert_eq.
  - split; [done|]. split; [done|]. split; [|done].
    intros _. rewrite !Hempty. split; [done|]. split; [done|]. by intros _ c key.
Qed.

(** ** Statistics, scope and queries across operations *)

Lemma reachable_index e : reachable e → indexInvariant e.
Proof.
  induction 1 as [|e size overlap _ IH|e env fileName content chatId _ IH Hfresh
                  |e env docId _ IH].
  - apply indexInvariant_new.
  - by apply indexInvariant_updateConfig.
  - by apply indexInvariant_addDocument.
  - by apply indexInvariant_removeDocument.
Qed.

Lemma totalContentLength_delete docs docId doc :
  docs !! docId = Some doc →
  totalContentLength docs
  = totalContentLength (delete docId docs) + length (doc_content doc).
Proof.
  intros Hdoc. unfold totalContentLength.
  rewrite (map_fold_delete_L (λ _ doc sum, sum + length (doc_content doc)) 0 docId doc docs);
    [done| |done].
  intros. lia.
Qed.

(** X26: after [addDocument] with a new identifier the statistics count
    one document more, the chunks of the document more and the length of
    its content more, whatever the store answers; and the chunk count of
    a success result is the number of chunks that were added. *)
Theorem getStats_addDocument e env fileName content chatId :
  documents e !! env_docId env = None →
  let added := addDocument e env fileName content chatId in
  let newChunks := length (chunks added.1) - length (chunks e) in
  getStats added.1
  = [ ("documentCount"%string, S (size (documents e)));
      ("chunkCount"%string, length (chunks e) + newChunks);
      ("totalSize"%string, totalContentLength (documents e) + length content) ]
  ∧ documents added.1 !! env_docId env
    = Some {| doc_id := env_docId env; doc_name := fileName; doc_content := content;
              doc_addedAt := env_addedAt env; doc_chunkCount := newChunks;
              doc_chatId := chatId |}
  ∧ (∀ docId chunkCount,
       added.2 = AddSuccess docId chunkCount →
       docId = env_docId env ∧ chunkCount = newChunks).
Proof.
  intros Hfresh added newChunks. subst added newChunks.
  rewrite addDocument_engine. simpl.
  set (new := chunkDocument _ _ _ _ _ _).
  replace (length (chunks e ++ new) - length (chunks e)) with (length new)
    by (rewrite length_app; lia).
  split; [|split].
  - unfold getStats. simpl.
    by rewrite map_size_insert_None, length_app, totalContentLength_insert.
  - apply lookup_insert_eq.
  - intros docId chunkCount. unfold addDocument. fold new.
    destruct (env_saveDocument env), (env_saveChunks env); simpl; intros [= <- <-]; done.
Qed.

Lemma getStats_addDocument_witness :
  getStats (addDocument sampleEngine (sampleEnv "doc_4" Resolved)
              (js "d.txt") (js "delta") (js "global")).1
  = [ ("documentCount"%string, 4); ("chunkCount"%string, 4); ("totalSize"%string, 19) ].
Proof.
  pose proof (getStats_addDocument sampleEngine (sampleEnv "doc_4" Resolved)
                (js "d.txt") (js "delta") (js "global")) as Hstats.
  destruct Hstats as [Hstats _]; [by vm_compute|].
  rewrite Hstats. by vm_compute.
Defined.

(** X27: in a state of the index reached with identifiers that were not
    stored when [generateDocId] returned them, after [removeDocument] of a
    stored document the statistics count one document less, the document's
    [chunkCount] chunks less and the length of its content less. *)
Theorem getStats_removeDocument e env docId doc :
  reachable e →
  documents e !! docId = Some doc →
  let e' := (removeDocument e env docId).1 in
  size (documents e) = S (size (documents e'))
  ∧ length (chunks e) = length (chunks e') + doc_chunkCount doc
  ∧ totalContentLength (documents e)
    = totalContentLength (documents e') + length (doc_content doc).
Proof.
  intros Hreach Hdoc e'. subst e'. rewrite removeDocument_engine. simpl.
  destruct (reachable_index e Hreach) as [_ Hdocs].
  destruct (Hdocs docId doc Hdoc) as (_ & _ & Hcount).
  split; [|split].
  - rewrite map_size_delete, Hdoc. simpl.
    assert (size (documents e) ≠ 0); [|lia].
    intros Hzero. apply map_size_empty_inv in Hzero. by rewrite Hzero in Hdoc.
  - rewrite Hcount. unfold chunksOf.
    rewrite <-(filter_app_complement (λ chunk, chunk_docId chunk = docId) (chunks e)) at 1.
    rewrite length_app. lia.
  - by apply totalContentLength_delete.
Qed.

Lemma getStats_removeDocument_witness :
  let e' := (removeDocument sampleEngine
               {| env_deleteDocument := Resolved; env_deleteChunksByDocId := Resolved |}
               (js "doc_2")).1 in
  length (chunks sampleEngine) = length (chunks e') + 1.
Proof.
  intros e'.
  destruct (documents sampleEngine !! js "doc_2") as [doc|] eqn:Hdoc;
    [|by vm_compute in Hdoc].
  pose proof (getStats_removeDocument sampleEngine
                {| env_deleteDocument := Resolved; env_deleteChunksByDocId := Resolved |}
                (js "doc_2") doc reachable_sampleEngine Hdoc) as (_ & Hchunks & _).
  rewrite Hchunks. f_equal. vm_compute in Hdoc. by injection Hdoc as <-.
Defined.

(** X28: a document added with the scope that the upload handlers pass is
    in the list of documents of the same conversation and setting; with
    the chat-specific setting the list holds no document of another
    scope, the global documents included. *)
Theorem listedDocuments_scope app allDocs :
  (∀ doc, doc ∈ allDocs → doc_chatId doc = uploadScope app →
     doc ∈ listedDocuments app allDocs)
  ∧ (chatSpecificKnowledge app = true →
     ∀ doc, doc ∈ listedDocuments app allDocs → doc_chatId doc = currentChatId app)
  ∧ (chatSpecificKnowledge app = false →
     ∀ doc, doc ∈ listedDocuments app allDocs →
       doc_chatId doc = [] ∨ doc_chatId doc = js "global").
Proof.
  unfold listedDocuments, uploadScope.
  destruct (chatSpecificKnowledge app); repeat split; try done.
  - intros doc Hin Hscope. by apply list_elem_of_filter.
  - intros _ doc Hin. by apply list_elem_of_filter in Hin as [? _].
  - intros doc Hin Hscope. apply list_elem_of_filter. split; [by right|done].
  - intros _ doc Hin. by apply list_elem_of_filter in Hin as [? _].
Qed.

Lemma retrieve_tokens e query1 query2 topK :
  tokenize query1 = tokenize query2 →
  retrieveRelevantChunks e query1 topK = retrieveRelevantChunks e query2 topK.
Proof. intros Heq. unfold retrieveRelevantChunks, scoreChunks. by rewrite Heq. Qed.

(** X29: retrieval sees the query through its tokens only: on queries of
    code units up to U+00FF, the case of the query, the white space around
    it and the punctuation between its words change nothing to the
    result. *)
Theorem retrieveRelevantChunks_query e query topK :
  retrieveRelevantChunks e (toLowerCase query) topK = retrieveRelevantChunks e query topK
  ∧ retrieveRelevantChunks e (trim query) topK = retrieveRelevantChunks e query topK
  ∧ (∀ a b c d,
       isWordChar c = false → isWordChar d = false →
       retrieveRelevantChunks e (a ++ c :: b) topK
       = retrieveRelevantChunks e (a ++ d :: b) topK).
Proof.
  split; [|split].
  - apply retrieve_tokens. rewrite !tokenize_fields. unfold toLowerCase.
    rewrite <-list_fmap_compose. do 3 f_equal.
    apply list_fmap_ext. intros i c _. apply normChar_lowerChar.
  - apply retrieve_tokens, tokenize_trim.
  - intros a b c d Hc Hd. apply retrieve_tokens.
    rewrite !tokenize_fields, !fmap_app, !fmap_cons.
    by rewrite !fields_app_space by (by apply normChar_separator).
Qed.

(** ** Chunker: when there is no chunk *)

Section ChunkerBuffer.
Variables (size overlap : Z) (clock : nat → jsstring).
Variables (docId fileName : jsstring).

Local Abbreviation step := (chunkStep size overlap clock docId fileName).

(** A buffer that holds text, or a line that does, leaves a buffer that
    holds text. *)
Lemma chunkStep_buffer st line :
  st.1.2 ≠ [] ∨ line ≠ [] → (step st line).1.2 ≠ [].
Proof.
  destruct st as [[chunks cur] idx]. simpl. intros Hsome. unfold chunkStep.
  destruct (closes size cur line); simpl.
  - intros Heq. apply app_eq_nil in Heq as [_ Heq]. done.
  - destruct cur as [|c cur]; [|done]. simpl. by destruct Hsome.
Qed.

Lemma loop_buffer lines : ∀ st,
  st.1.2 ≠ [] ∨ (∃ line, line ∈ lines ∧ line ≠ []) →
  (fold_left step lines st).1.2 ≠ [].
Proof.
  induction lines as [|line lines IH]; intros st Hsome; simpl.
  - destruct Hsome as [Hcur|(line & Hin & _)]; [done|by apply elem_of_nil in Hin].
  - apply IH. destruct Hsome as [Hcur|(l & Hin & Hl)].
    + left. apply chunkStep_buffer. by left.
    + apply elem_of_cons in Hin as [->|Hin].
      * left. apply chunkStep_buffer. by right.
      * right. by exists l.
Qed.

Lemma loop_empty_lines lines : ∀ chunks idx,
  Forall (λ line, line = []) lines →
  fold_left step lines (chunks, [], idx) = (chunks, [], idx).
Proof.
  induction lines as [|line lines IH]; intros chunks idx Hall; [done|].
  apply Forall_cons in Hall as [-> Hall]. cbn [fold_left].
  rewrite step_append by apply closes_empty. by apply IH.
Qed.
End ChunkerBuffer.

Lemma splitOn_first sep s : ∀ cur, ∃ rest pieces, splitOn sep cur s = (cur ++ rest) :: pieces.
Proof.
  induction s as [|c s IH]; intros cur; simpl.
  - exists [], []. by rewrite app_nil_r.
  - destruct (Ascii.eqb c sep).
    + exists [], (splitOn sep [] s). by rewrite app_nil_r.
    + destruct (IH (cur ++ [c])) as (rest & pieces & ->).
      exists (c :: rest), pieces. by rewrite <-app_assoc.
Qed.

Lemma splitOn_nonempty_piece sep s : ∀ cur,
  (∃ c, c ∈ s ∧ c ≠ sep) → ∃ piece, piece ∈ splitOn sep cur s ∧ piece ≠ [].
Proof.
  induction s as [|c s IH]; intros cur (x & Hin & Hx); simpl.
  - by apply elem_of_nil in Hin.
  - destruct (Ascii.eqb_spec c sep) as [->|Hc].
    + apply elem_of_cons in Hin as [->|Hin]; [done|].
      destruct (IH [] (ex_intro _ x (conj Hin Hx))) as (piece & Hpiece & Hne).
      exists piece. split; [by right|done].
    + destruct (splitOn_first sep s (cur ++ [c])) as (rest & pieces & ->).
      exists ((cur ++ [c]) ++ rest). split; [left|].
      intros Heq. apply app_eq_nil in Heq as [Heq _].
      apply app_eq_nil in Heq as [_ Heq]. done.
Qed.

Lemma splitOn_only_separators sep s :
  (∀ c, c ∈ s → c = sep) → Forall (λ piece, piece = []) (splitOn sep [] s).
Proof.
  induction s as [|c s IH]; intros Hall; simpl; [by repeat constructor|].
  rewrite (Hall c) by left. rewrite Ascii.eqb_refl.
  constructor; [done|]. apply IH. intros x Hx. apply Hall. by right.
Qed.

(** X30: whatever [chunkSize] and [chunkOverlap] are, [chunkDocument]
    returns no chunk exactly for the texts made of line feeds only, the
    empty text included: any other text gives at least one chunk. *)
Theorem chunkDocument_nil_iff size overlap clock docId fileName content :
  chunkDocument size overlap clock docId fileName content = []
  ↔ ∀ c, c ∈ content → c = LF.
Proof.
  split.
  - intros Hnil.
    destruct (decide (Forall (λ c, c = LF) content)) as [Hall|Hsome].
    { by apply Forall_forall. }
    exfalso. apply not_Forall_Exists in Hsome; [|apply _].
    apply Exists_exists in Hsome as (c & Hin & Hc).
    destruct (splitOn_nonempty_piece LF content [] (ex_intro _ c (conj Hin Hc)))
      as (piece & Hpiece & Hne).
    pose proof (loop_buffer size overlap clock docId fileName (split LF content)
                  ([], [], 0) (or_intror (ex_intro _ piece (conj Hpiece Hne)))) as Hbuffer.
    unfold chunkDocument in Hnil.
    destruct (fold_left _ _ _) as [[chunks cur] idx]. simpl in Hbuffer.
    destruct cur as [|a cur]; [done|]. simpl in Hnil.
    by apply app_eq_nil in Hnil as [_ Hnil].
  - intros Hall. unfold chunkDocument, split.
    by rewrite loop_empty_lines by (by apply splitOn_only_separators).
Qed.
